(** * RbxApiClient: the build-time generator (build.js) and the runtime
      client (dist/client.js), embedded and checked against their
      specification.

    Layout:
    - [Js]        the fragment of JavaScript the sources rely on: errors,
                  string helpers, [String.prototype.replace] with a string
                  pattern, [Array.prototype.sort], [Promise.all];
    - [Doc]       the Swagger-like documents the generator consumes;
    - [Compiler]  extractSchemaNode, buildParamsInfo, buildMethodDoc,
                  buildMethodName, buildMethodParams, buildMethodBody,
                  buildEndpoint;
    - [Tree]      buildApiTree and main;
    - [Generated] the code the generator emits: the [required] guard, the
                  destructured signature, createRBXClient;
    - [Client]    the response interceptor of dist/client.js.

    Strings are sequences of 8-bit characters; case conversion is the
    ASCII one.  An object used as a map is the finite map of its own
    properties, or the list of its entries where the order of
    [Object.entries] matters; a property read on such an object falls
    back on what [Object.prototype] gives ([Js.lookup]). *)

From Stdlib Require Import ZArith Ascii String List Bool Lia.
From stdpp Require Import gmap strings.
Import ListNotations.
Local Open Scope string_scope.
Local Open Scope list_scope.

(* ================================================================== *)
(** ** JavaScript fragment *)
(* ================================================================== *)
Module Js.

(** Exceptions the sources raise or provoke.  [Error] is [new Error(msg)],
    [SyntaxError] is [new SyntaxError(msg)], [TypeError] stands for the
    engine's own error on a property read of [undefined] or [null],
    [Rejected] is a rejection value that is not built by this code (a
    failed web request). *)
Inductive exn : Type :=
| Error (msg : string)
| SyntaxError (msg : string)
| TypeError (what : string)
| Rejected (status : option Z) (msg : string).

Inductive result (A : Type) : Type :=
| Ok (a : A)
| Throw (e : exn).
Arguments Ok {A} a.
Arguments Throw {A} e.

Definition bind {A B} (r : result A) (k : A -> result B) : result B :=
  match r with
  | Ok a => k a
  | Throw e => Throw e
  end.

Notation "'let*' x ':=' r 'in' k" := (bind r (fun x => k))
  (at level 10, x pattern, r at level 100, k at level 200).

Definition is_ok {A} (r : result A) : bool :=
  match r with Ok _ => true | Throw _ => false end.

(** *** Characters and strings *)

Definition dq : string := String (ascii_of_nat 34) EmptyString.
Definition nl : string := String (ascii_of_nat 10) EmptyString.

Definition is_upper (c : ascii) : bool :=
  let n := nat_of_ascii c in Nat.leb 65 n && Nat.leb n 90.
Definition is_lower (c : ascii) : bool :=
  let n := nat_of_ascii c in Nat.leb 97 n && Nat.leb n 122.
Definition is_letter (c : ascii) : bool := is_upper c || is_lower c.
Definition is_line_terminator (c : ascii) : bool :=
  let n := nat_of_ascii c in Nat.eqb n 10 || Nat.eqb n 13.

Definition upper_char (c : ascii) : ascii :=
  if is_lower c then ascii_of_nat (nat_of_ascii c - 32) else c.
Definition lower_char (c : ascii) : ascii :=
  if is_upper c then ascii_of_nat (nat_of_ascii c + 32) else c.

Fixpoint map_chars (f : ascii -> ascii) (s : string) : string :=
  match s with
  | EmptyString => EmptyString
  | String c r => String (f c) (map_chars f r)
  end.

Definition toUpperCase : string -> string := map_chars upper_char.
Definition toLowerCase : string -> string := map_chars lower_char.

(** [String.prototype.toNormalCase], installed by build.js:
    [this.charAt(0).toUpperCase() + this.slice(1).toLowerCase()]. *)
Definition toNormalCase (s : string) : string :=
  match s with
  | EmptyString => EmptyString
  | String c r => String (upper_char c) (toLowerCase r)
  end.

(** [s.split(re)] for a regular expression matching one character of the
    class [sep]. *)
Fixpoint split_on (sep : ascii -> bool) (s : string) : list string :=
  match s with
  | EmptyString => [EmptyString]
  | String c r =>
      if sep c then EmptyString :: split_on sep r
      else match split_on sep r with
           | h :: t => String c h :: t
           | [] => [String c EmptyString]
           end
  end.

Definition join (sep : string) (l : list string) : string := String.concat sep l.

(** a string is truthy when it is not empty *)
Definition truthy (s : string) : bool :=
  match s with EmptyString => false | _ => true end.

(** [filter(Boolean)] on an array of strings and nulls *)
Definition filter_Boolean (l : list (option string)) : list string :=
  flat_map (fun o => match o with
                     | Some s => if truthy s then [s] else []
                     | None => []
                     end) l.

(** [`${v}`] for a value that may be [undefined] *)
Definition show (o : option string) : string :=
  match o with Some s => s | None => "undefined" end.

Fixpoint drop (n : nat) (s : string) : string :=
  match n, s with
  | O, _ => s
  | S k, String _ r => drop k r
  | S _, EmptyString => EmptyString
  end.

Fixpoint take_while (p : ascii -> bool) (s : string) : string :=
  match s with
  | String c r => if p c then String c (take_while p r) else EmptyString
  | EmptyString => EmptyString
  end.

(** first occurrence of [pat] in [s]: the text before it and after it *)
Fixpoint split_at_first (pat s : string) : option (string * string) :=
  if String.prefix pat s then Some (EmptyString, drop (String.length pat) s)
  else match s with
       | EmptyString => None
       | String c r =>
           match split_at_first pat r with
           | Some (b, a) => Some (String c b, a)
           | None => None
           end
       end.

Definition includes (pat s : string) : bool :=
  match split_at_first pat s with Some _ => true | None => false end.

(** The replacement text of [replace]: [$$], [$&], [$`] and [$'] are
    expanded; a string pattern has no capture groups, so any other [$]
    stands for itself. *)
Fixpoint expand_replacement (before matched after repl : string) : string :=
  match repl with
  | EmptyString => EmptyString
  | String c r =>
      if Ascii.eqb c "$" then
        match r with
        | String d r' =>
            if Ascii.eqb d "$" then
              String "$" (expand_replacement before matched after r')
            else if Ascii.eqb d "&" then
              matched +:+ expand_replacement before matched after r'
            else if Ascii.eqb d "`" then
              before +:+ expand_replacement before matched after r'
            else if Ascii.eqb d "'" then
              after +:+ expand_replacement before matched after r'
            else String c (expand_replacement before matched after r)
        | EmptyString => String c EmptyString
        end
      else String c (expand_replacement before matched after r)
  end.

(** [s.replace(pattern, repl)] with a pattern that is a string, or
    [undefined], which is converted to the text "undefined": only the
    first occurrence is replaced. *)
Definition replace (s : string) (pattern : option string) (repl : string) : string :=
  let pat := show pattern in
  match split_at_first pat s with
  | Some (b, a) => b +:+ expand_replacement b pat a repl +:+ a
  | None => s
  end.

(** *** Reading a property of a plain object

    The objects the sources use as maps ([pathParams], the definitions
    of a document, the argument of a generated method) are plain
    objects: a name they do not own is looked up in [Object.prototype],
    which gives a function for eleven names and the prototype itself
    for [__proto__]. *)
Definition prototype_functions : list string :=
  ["constructor"; "__defineGetter__"; "__defineSetter__";
   "hasOwnProperty"; "__lookupGetter__"; "__lookupSetter__";
   "isPrototypeOf"; "propertyIsEnumerable"; "toString"; "valueOf";
   "toLocaleString"].

Definition is_inherited (nm : string) : bool :=
  existsb (String.eqb nm) prototype_functions || String.eqb nm "__proto__".

(** the text an inherited value converts to: [constructor] is the
    function [Object], [__proto__] is an object, the other names are
    functions of their own name *)
Definition inherited_text (nm : string) : string :=
  if String.eqb nm "__proto__" then "[object Object]"
  else if String.eqb nm "constructor"
       then "function Object() { [native code] }"
       else "function " +:+ nm +:+ "() { [native code] }".

Inductive property (V : Type) : Type :=
| Own (v : V)                (* a property of the object itself *)
| Inherited (nm : string)    (* what Object.prototype has under [nm] *)
| Missing.                   (* the read gives [undefined] *)
Arguments Own {V} v.
Arguments Inherited {V} nm.
Arguments Missing {V}.

(** [o[k]] *)
Definition lookup {V} (o : gmap string V) (k : string) : property V :=
  match o !! k with
  | Some v => Own v
  | None => if is_inherited k then Inherited k else Missing
  end.

(** *** [Array.prototype.sort]

    build.js is run by Node ([node build.js]).  Node's engine sorts with
    TimSort: it finds the run that starts the array (reversing it when it
    is strictly descending) and, for an array shorter than 64 elements,
    extends that run to the whole array by binary insertion.  The model
    below is that path; it calls the comparison function with the same
    arguments in the same order as the engine does, which matters when
    the function is not a consistent comparator.  Arrays of 64 elements
    and more (which the engine sorts by merging several runs) are outside
    the model. *)
Section ArraySort.
Context {A : Type} (comparefn : A -> A -> Z).

(** how many elements after [prev] continue the run *)
Fixpoint run_tail (descending : bool) (prev : A) (rest : list A) : nat :=
  match rest with
  | [] => 0
  | cur :: tl =>
      let order := comparefn cur prev in
      if descending
      then (if (order >=? 0)%Z then 0 else S (run_tail descending cur tl))
      else (if (order <? 0)%Z then 0 else S (run_tail descending cur tl))
  end.

Definition countAndMakeRun (arr : list A) : list A * nat :=
  match arr with
  | [] => (arr, 0)
  | [_] => (arr, 1)
  | x0 :: x1 :: tl =>
      let descending := (comparefn x1 x0 <? 0)%Z in
      let runLength := 2 + run_tail descending x1 tl in
      if descending
      then (rev (firstn runLength arr) ++ skipn runLength arr, runLength)
      else (arr, runLength)
  end.

(** the binary search of the insertion point of [pivot] in
    [arr[left..right)] *)
Fixpoint find_slot (fuel : nat) (arr : list A) (pivot : A)
         (left right : nat) : nat :=
  match fuel with
  | O => left
  | S f =>
      if Nat.ltb left right then
        let mid := left + Nat.div2 (right - left) in
        match nth_error arr mid with
        | Some m =>
            if (comparefn pivot m <? 0)%Z
            then find_slot f arr pivot left mid
            else find_slot f arr pivot (S mid) right
        | None => left
        end
      else left
  end.

(** one round of the insertion loop: [arr[start]] is moved to its slot
    in the sorted prefix [arr[0..start)] *)
Definition insert_pivot (arr : list A) (start : nat) : list A :=
  match nth_error arr start with
  | None => arr
  | Some pivot =>
      let left := find_slot (S start) arr pivot 0 start in
      firstn left arr ++ pivot :: firstn (start - left) (skipn left arr)
        ++ skipn (S start) arr
  end.

Fixpoint binaryInsertionSort (rounds : nat) (arr : list A) (start : nat)
  : list A :=
  match rounds with
  | O => arr
  | S r => binaryInsertionSort r (insert_pivot arr start) (S start)
  end.

Definition sort (arr : list A) : list A :=
  if Nat.ltb (List.length arr) 2 then arr
  else let '(arr1, run) := countAndMakeRun arr in
       binaryInsertionSort (List.length arr - run) arr1 run.
End ArraySort.

(** *** [Promise.all]

    Each promise has settled to a value or to a rejection.  The joined
    promise rejects with the rejection that happened first in time;
    [settle] lists the positions of the promises in the order in which
    they settled.  Positions that [settle] does not list are taken in
    array order. *)
Fixpoint first_rejection {A} (settle : list nat) (ps : list (result A))
  : option exn :=
  match settle with
  | [] => None
  | i :: rest =>
      match nth_error ps i with
      | Some (Throw e) => Some e
      | _ => first_rejection rest ps
      end
  end.

Fixpoint all_values {A} (ps : list (result A)) : result (list A) :=
  match ps with
  | [] => Ok []
  | Ok a :: rest => let* vs := all_values rest in Ok (a :: vs)
  | Throw e :: _ => Throw e
  end.

Definition Promise_all {A} (settle : list nat) (ps : list (result A))
  : result (list A) :=
  match first_rejection settle ps with
  | Some e => Throw e
  | None => all_values ps
  end.

End Js.

Import Js.

(* ================================================================== *)
(** ** Documents consumed by the generator *)
(* ================================================================== *)
Module Doc.

(** A documentation node (a schema, a property, an array element), duck
    typed in the source: every field may be missing. *)
#[warnings="-register-all"]
Inductive node : Type :=
  Node { n_ref : option string;                       (* $ref *)
         n_type : option string;                      (* type *)
         n_description : option string;               (* description *)
         n_items : option node;                       (* items *)
         n_properties : option (list (string * node)); (* properties, in
                                                  Object.entries order *)
         n_required : list string                     (* required *) }.

(** A declared parameter of an operation. *)
Record parameter : Type :=
  Parameter_ { p_name : string;
               p_in : option string;
               p_schema : option node;
               p_type : option string;
               p_description : option string;
               p_enum : option (list string);
               p_required : bool   (* truthiness of [required] *) }.

(** An operation: one HTTP verb of one path. *)
Record methodInfo : Type :=
  MethodInfo { summary : option string;
               deprecated : bool;
               parameters : option (list parameter) }.

(** The definitions of a schema document, by name. *)
Abbreviation schemas := (gmap string node).

(** A schema document: paths (in Object.entries order), each with its
    verbs (in Object.entries order), and the definitions. *)
Record document : Type :=
  Document { paths : list (string * list (string * methodInfo));
             definitions : schemas }.

(** The metadata of one API, as fetchMeta records it. *)
Record meta : Type :=
  Meta { url : string;
         versions : list string;
         meta_name : option string;
         meta_description : option string }.

End Doc.
Import Doc.

(* ================================================================== *)
(** ** The schema-to-method compiler *)
(* ================================================================== *)
Module Compiler.

(** [docNode.$ref.match(/#\/definitions\/(.+)/)]: the first place where
    the text "#/definitions/" is followed by a character that is not a
    line terminator; the group is the rest of that line. *)
Fixpoint match_definition (s : string) : option string :=
  let here :=
    if String.prefix "#/definitions/" s then
      match take_while (fun c => negb (is_line_terminator c))
                       (drop 14 s) with
      | EmptyString => None
      | g => Some g
      end
    else None in
  match here with
  | Some g => Some g
  | None => match s with
            | EmptyString => None
            | String _ r => match_definition r
            end
  end.

(** What the sources read on a value inherited from [Object.prototype]
    (a function, or the prototype itself): [type], [items] and
    [properties] are all [undefined] on it. *)
Definition inherited_value : node :=
  {| n_ref := None; n_type := None; n_description := None;
     n_items := None; n_properties := None; n_required := [] |}.

(** [schemas[schemaName]] *)
Definition definition_of (defs : schemas) (schemaName : string)
  : option node :=
  match Js.lookup defs schemaName with
  | Own nd => Some nd
  | Inherited _ => Some inherited_value
  | Missing => None
  end.

(** extractSchemaNode.  The argument is [None] when the caller passes
    [undefined]; the result is [None] when the read of the referenced
    name in the definitions gives [undefined]. *)
Definition extractSchemaNode (docNode : option node) (defs : schemas)
  : result (option node) :=
  match docNode with
  | None => Throw (TypeError "$ref of undefined")
  | Some nd =>
      match n_ref nd with
      | Some r =>
          if truthy r then
            match match_definition r with
            | Some schemaName => Ok (definition_of defs schemaName)
            | None => Throw (TypeError "[1] of null")
            end
          else Ok docNode
      | None => Ok docNode
      end
  end.

(** where a logical parameter goes in the request *)
Record out : Type :=
  Out { param : string; location : option string }.

(** a logical parameter of the generated method *)
Record paramInfo : Type :=
  ParamInfo { name : string;
              type : option string;
              description : string;
              out_ : out;
              enum : option (list string);
              required : bool }.

Record paramsInfo : Type :=
  ParamsInfo { params : list paramInfo;
               pathParams : gmap string string;
               isMapped : bool }.

(** [path.matchAll(/\{([a-zA-Z\-]+).*?\}/g)]: a match starts at a brace
    followed by letters or hyphens (the group) and ends at the first
    closing brace, with no line terminator in between. *)
Definition is_name_char (c : ascii) : bool := is_letter c || Ascii.eqb c "-".

Fixpoint until_close (s : string) : option string :=
  match s with
  | EmptyString => None
  | String c r =>
      if Ascii.eqb c "}" then Some (String c EmptyString)
      else if is_line_terminator c then None
      else match until_close r with
           | Some t => Some (String c t)
           | None => None
           end
  end.

Definition match_placeholder (s : string) : option (string * string) :=
  match s with
  | String c r =>
      if Ascii.eqb c "{" then
        match take_while is_name_char r with
        | EmptyString => None
        | g =>
            match until_close (drop (String.length g) r) with
            | Some t => Some (g, String c (g +:+ t))
            | None => None
            end
        end
      else None
  | EmptyString => None
  end.

Fixpoint placeholders_from (skip : nat) (s : string) : list (string * string) :=
  match s with
  | EmptyString => []
  | String _ r =>
      match skip with
      | S k => placeholders_from k r
      | O =>
          match match_placeholder s with
          | Some (g, whole) =>
              (g, whole) :: placeholders_from (String.length whole - 1) r
          | None => placeholders_from 0 r
          end
      end
  end.

Definition matchAll_placeholders (path : string) : list (string * string) :=
  placeholders_from 0 path.

(** [pathParams[param[1]] = param[0]] for every match, in order *)
Definition collect_pathParams (path : string) : gmap string string :=
  fold_left (fun m '(g, whole) => <[g := whole]> m)
            (matchAll_placeholders path) ∅.

(** [name.split(/\-|\./).map((part, index) => index ? part.toNormalCase()
    : part).join('')] *)
Definition normalize_name (nm : string) : string :=
  match split_on (fun c => Ascii.eqb c "-" || Ascii.eqb c ".") nm with
  | [] => EmptyString
  | first :: others => join EmptyString (first :: map toNormalCase others)
  end.

(** [x || ''] *)
Definition or_empty (o : option string) : string :=
  match o with Some s => s | None => EmptyString end.

(** [pathParams[name] ? 'path' : declared] *)
Definition resolve_location (pp : gmap string string) (nm : string)
           (declared : option string) : option string :=
  match Js.lookup pp nm with
  | Own whole => if truthy whole then Some "path" else declared
  | Inherited _ => Some "path"
  | Missing => declared
  end.

(** [pathParams[nm]] as the pattern of [replace]: the text of the
    placeholder, the text an inherited value converts to, or
    [undefined] *)
Definition pattern_of (pp : gmap string string) (nm : string)
  : option string :=
  match Js.lookup pp nm with
  | Own whole => Some whole
  | Inherited i => Some (inherited_text i)
  | Missing => None
  end.

(** the comparison function of line 307: [param => param.required ? -1 : 1];
    the second argument is ignored *)
Definition required_first (a _b : parameter) : Z :=
  if p_required a then (-1)%Z else 1%Z.

(** [t === 'text'] for a field that may be [undefined] *)
Definition is_type (t : option string) (text : string) : bool :=
  match t with Some x => String.eqb x text | None => false end.

(** [schema.type] when [schema] may be [undefined] *)
Definition type_of (schema : option node) : result (option string) :=
  match schema with
  | Some nd => Ok (n_type nd)
  | None => Throw (TypeError "type of undefined")
  end.

(** the type text [`array<${items.type}>`] of an array node *)
Definition array_type (arrayNode : node) (defs : schemas) : result string :=
  let* items := extractSchemaNode (n_items arrayNode) defs in
  let* t := type_of items in
  Ok ("array<" +:+ show t +:+ ">").

(** the loop over the properties of the single object parameter
    (lines 318-336) *)
Fixpoint promote_properties (props : list (string * node)) (o : out)
         (defs : schemas) : result (list paramInfo) :=
  match props with
  | [] => Ok []
  | (nm, propInfo) :: rest =>
      let* _paramType :=
        (if is_type (n_type propInfo) "array"
         then array_type propInfo defs
         else Ok (show (n_type propInfo))) in
      let* more := promote_properties rest o defs in
      Ok ({| name := normalize_name nm;
             type := n_type propInfo;
             description := or_empty (n_description propInfo);
             out_ := o;
             enum := None;
             required := true |} :: more)
  end.

(** the body of the loop over independent parameters (lines 339-368) *)
Definition independent_param (pp : gmap string string) (defs : schemas)
           (p : parameter) : result paramInfo :=
  let o := {| param := p_name p;
              location := resolve_location pp (p_name p) (p_in p) |} in
  let* paramType :=
    match p_schema p with
    | Some _ =>
        let* schema := extractSchemaNode (p_schema p) defs in
        match schema with
        | Some nd =>
            if is_type (n_type nd) "array"
            then let* a := array_type nd defs in Ok (Some a)
            else Ok (n_type nd)
        | None => Throw (TypeError "type of undefined")
        end
    | None => Ok (p_type p)
    end in
  Ok {| name := normalize_name (p_name p);
        type := paramType;
        description := or_empty (p_description p);
        out_ := o;
        enum := match p_enum p with
                | Some vs => Some (map (fun v => "'" +:+ v +:+ "'") vs)
                | None => None
                end;
        required := p_required p |}.

Fixpoint independent_params (pp : gmap string string) (defs : schemas)
         (ps : list parameter) : result (list paramInfo) :=
  match ps with
  | [] => Ok []
  | p :: rest =>
      let* i := independent_param pp defs p in
      let* more := independent_params pp defs rest in
      Ok (i :: more)
  end.

(** buildParamsInfo.  The function sorts [methodInfo.parameters] in
    place, so the operation it was given comes back with the result. *)
Definition buildParamsInfo (path : string) (mi : methodInfo) (defs : schemas)
  : result (methodInfo * paramsInfo) :=
  match parameters mi with
  | None =>
      Ok (mi, {| params := []; pathParams := ∅; isMapped := false |})
  | Some declared =>
      let pp := collect_pathParams path in
      let sorted := Js.sort required_first declared in
      let mi' := {| summary := summary mi;
                    deprecated := deprecated mi;
                    parameters := Some sorted |} in
      let single :=
        match sorted with
        | [p] => match p_schema p with Some _ => Some p | None => None end
        | _ => None
        end in
      match single with
      | Some p =>
          let* schema := extractSchemaNode (p_schema p) defs in
          let o := {| param := p_name p;
                      location := resolve_location pp (p_name p) (p_in p) |} in
          match schema with
          | Some nd =>
              if is_type (n_type nd) "object" then
                match n_properties nd with
                | Some props =>
                    let* ps := promote_properties props o defs in
                    Ok (mi', {| params := ps; pathParams := pp;
                                isMapped := match props with
                                            | [] => false
                                            | _ => true
                                            end |})
                | None => Throw (TypeError "Object.entries of undefined")
                end
              else Ok (mi', {| params := []; pathParams := pp;
                               isMapped := false |})
          | None => Throw (TypeError "type of undefined")
          end
      | None =>
          let* ps := independent_params pp defs sorted in
          Ok (mi', {| params := ps; pathParams := pp; isMapped := false |})
      end
  end.


(** buildMethodDoc *)
Definition doc_line (p : paramInfo) : string :=
  let enumOrType :=
    match enum p with
    | Some vs => "(" +:+ join "|" vs +:+ ")"
    | None => show (type p)
    end in
  let nm := if required p then name p else "[" +:+ name p +:+ "]" in
  "* @param {" +:+ enumOrType +:+ "} " +:+ nm +:+ " " +:+ description p.

Definition or_no_description (d : option string) : string :=
  match d with
  | Some s => if truthy s then s else "No description"
  | None => "No description"
  end.

Definition buildMethodDoc (descr : option string) (deprec : bool)
           (ps : list paramInfo) : string :=
  if negb (Nat.eqb (List.length ps) 0) || deprec then
    join nl
      (filter_Boolean
         ([Some ("/** " +:+ or_no_description descr);
           Some (if deprec then "* @deprecated" else EmptyString)]
          ++ map (fun p => Some (doc_line p)) ps
          ++ [Some "*/"]))
  else "/** " +:+ or_no_description descr +:+ " */".

(** buildMethodName *)
Fixpoint all_chars (p : ascii -> bool) (s : string) : bool :=
  match s with
  | EmptyString => true
  | String c r => p c && all_chars p r
  end.

Fixpoint last_char (s : string) : option ascii :=
  match s with
  | EmptyString => None
  | String c EmptyString => Some c
  | String _ r => last_char r
  end.

(** [/^v(\d|.)+$/.test(part)] *)
Definition is_version_token (part : string) : bool :=
  match part with
  | String c (String d r) =>
      Ascii.eqb c "v"
      && all_chars (fun x => negb (is_line_terminator x)) (String d r)
  | _ => false
  end.

(** [/^\{.*?\}$/.test(part)] *)
Definition is_placeholder (part : string) : bool :=
  match part with
  | String c (String d r) =>
      Ascii.eqb c "{"
      && match last_char (String d r) with
         | Some e => Ascii.eqb e "}"
         | None => false
         end
      && all_chars (fun x => negb (is_line_terminator x)) (String d r)
  | _ => false
  end.

(** [RegExp(apiClassName, 'i').test(part)].  fetchMeta builds the class
    name from letters only, so the expression is a case-insensitive
    search for the name. *)
Definition mentions_class (apiClassName part : string) : bool :=
  includes (toLowerCase apiClassName) (toLowerCase part).

Definition name_parts (path : string) : list string :=
  List.filter (fun part => negb (is_version_token part)
                           && negb (is_placeholder part))
    (List.filter truthy
       (split_on (fun c => Ascii.eqb c "-" || Ascii.eqb c "/") path)).

Definition buildMethodName (apiClassName path : string) : string :=
  let parts := name_parts path in
  fold_left
    (fun nm part =>
       if negb (truthy nm) && Nat.ltb 1 (List.length parts)
          && mentions_class apiClassName part
       then nm
       else nm +:+ toNormalCase part)
    parts EmptyString.

(** buildMethodParams.  The text is the rendering of one binding per
    logical parameter. *)
Inductive default : Type :=
| DefaultRequired (paramName : string)   (* = required('paramName') *)
| DefaultNull.                           (* = null *)

Definition binding_of (p : paramInfo) : string * default :=
  (name p, if required p then DefaultRequired (name p) else DefaultNull).

Definition bindings (ps : list paramInfo) : list (string * default) :=
  map binding_of ps.

Definition render_binding (b : string * default) : string :=
  fst b +:+ " = " +:+
  match snd b with
  | DefaultRequired pn => "required('" +:+ pn +:+ "')"
  | DefaultNull => "null"
  end.

Definition buildMethodParams (ps : list paramInfo) : string :=
  match map render_binding (bindings ps) with
  | [] => EmptyString
  | resultParams => "{ " +:+ join ", " resultParams +:+ " } = {}"
  end.


(** buildMethodBody.  The state of the function: the address being
    rewritten, the request body, the query entries, the header entries. *)
Record request : Type :=
  Request { fullURL : string;
            reqBody : option string;     (* [None] is [null] *)
            reqParams : list string;
            reqHeaders : list string }.

Definition unsupported (loc : option string) : exn :=
  Error ("Unsupported parameter location: " +:+ show loc).

(** the grouped branch (lines 459-479) *)
Definition route_group (pp : gmap string string) (rq : request)
           (ps : list paramInfo) : result request :=
  let o := List.last (map (fun p => Some (out_ p)) ps) None in
  let obj :=
    "{" +:+ join ("," +:+ nl)
              (map (fun p => "'" +:+ name p +:+ "': " +:+ name p) ps)
        +:+ "}" in
  match o with
  | None => Throw (TypeError "location of undefined")
  | Some o =>
      if is_type (location o) "path" then
        Ok {| fullURL := replace (fullURL rq) (pattern_of pp (param o)) obj;
              reqBody := reqBody rq;
              reqParams := reqParams rq;
              reqHeaders := reqHeaders rq |}
      else if is_type (location o) "query" then
        Ok {| fullURL := fullURL rq;
              reqBody := reqBody rq;
              reqParams := reqParams rq ++ ["'" +:+ param o +:+ "': " +:+ obj];
              reqHeaders := reqHeaders rq |}
      else if is_type (location o) "header" then
        Ok {| fullURL := fullURL rq;
              reqBody := reqBody rq;
              reqParams := reqParams rq;
              reqHeaders := reqHeaders rq ++ ["'" +:+ param o +:+ "': " +:+ obj] |}
      else if is_type (location o) "body" then
        Ok {| fullURL := fullURL rq;
              reqBody := Some obj;
              reqParams := reqParams rq;
              reqHeaders := reqHeaders rq |}
      else Throw (unsupported (location o))
  end.

(** one round of the loop over independent parameters (lines 481-497) *)
Definition route_param (pp : gmap string string) (rq : request)
           (p : paramInfo) : result request :=
  let o := out_ p in
  if is_type (location o) "path" then
    Ok {| fullURL := replace (fullURL rq) (pattern_of pp (param o))
                             ("${" +:+ name p +:+ "}");
          reqBody := reqBody rq;
          reqParams := reqParams rq;
          reqHeaders := reqHeaders rq |}
  else if is_type (location o) "query" then
    Ok {| fullURL := fullURL rq;
          reqBody := reqBody rq;
          reqParams := reqParams rq ++ ["'" +:+ param o +:+ "': " +:+ name p];
          reqHeaders := reqHeaders rq |}
  else if is_type (location o) "header" then
    Ok {| fullURL := fullURL rq;
          reqBody := reqBody rq;
          reqParams := reqParams rq;
          reqHeaders := reqHeaders rq ++ ["'" +:+ param o +:+ "': " +:+ name p] |}
  else if is_type (location o) "body" then
    match reqBody rq with
    | Some b =>
        if truthy b then Throw (Error "[object Object]")
        else Ok {| fullURL := fullURL rq;
                   reqBody := Some (name p);
                   reqParams := reqParams rq;
                   reqHeaders := reqHeaders rq |}
    | None => Ok {| fullURL := fullURL rq;
                    reqBody := Some (name p);
                    reqParams := reqParams rq;
                    reqHeaders := reqHeaders rq |}
    end
  else if is_type (location o) "formData" then
    Ok {| fullURL := fullURL rq;
          reqBody := Some (name p);
          reqParams := reqParams rq;
          reqHeaders := reqHeaders rq
                        ++ ["...(" +:+ name p +:+ " ? " +:+ name p
                            +:+ ".getHeaders() : {})"] |}
  else Throw (unsupported (location o)).

Fixpoint route_params (pp : gmap string string) (rq : request)
         (ps : list paramInfo) : result request :=
  match ps with
  | [] => Ok rq
  | p :: rest =>
      let* rq' := route_param pp rq p in
      route_params pp rq' rest
  end.

Definition render_request (methodType : string) (rq : request) : string :=
  "return this.client({" +:+ nl +:+ "    " +:+
  join ("," +:+ nl)
    (filter_Boolean
       [Some ("method: '" +:+ toLowerCase methodType +:+ "'");
        Some ("url: `" +:+ fullURL rq +:+ "`");
        match reqBody rq with
        | Some b => if truthy b then Some ("data: " +:+ b) else None
        | None => None
        end;
        match reqParams rq with
        | [] => None
        | l => Some ("params: {" +:+ join ("," +:+ nl) l +:+ "}")
        end;
        match reqHeaders rq with
        | [] => None
        | l => Some ("headers: {" +:+ join ("," +:+ nl) l +:+ "}")
        end])
  +:+ nl +:+ "  });".

Definition buildMethodBody (url : string) (methodType : string)
           (ps : list paramInfo) (pp : gmap string string) (mapped : bool)
  : result string :=
  let rq0 := {| fullURL := url; reqBody := None;
                reqParams := []; reqHeaders := [] |} in
  let* rq := (if mapped then route_group pp rq0 ps
              else route_params pp rq0 ps) in
  Ok (render_request methodType rq).

(** buildEndpoint.  [endpointData] is the list of the verbs of the path
    with their operations, in Object.entries order; the operations come
    back as buildParamsInfo left them. *)
Definition compile_method (apiClassName url path : string) (several : bool)
           (defs : schemas) (methodType : string) (mi : methodInfo)
  : result (methodInfo * string) :=
  let* (mi', info) := buildParamsInfo path mi defs in
  let mathodDoc := buildMethodDoc (summary mi') (deprecated mi') (params info) in
  let methodName := buildMethodName apiClassName path in
  let methodParams := buildMethodParams (params info) in
  let* methodBody :=
    buildMethodBody (url +:+ path) methodType (params info)
                    (pathParams info) (isMapped info) in
  let prefix := if several then toNormalCase methodType else EmptyString in
  Ok (mi',
      mathodDoc +:+ nl +:+ "    " +:+ prefix +:+ methodName +:+ "("
      +:+ methodParams +:+ ") {" +:+ nl +:+ "      " +:+ methodBody
      +:+ nl +:+ "    }").

Fixpoint compile_methods (apiClassName url path : string) (several : bool)
         (defs : schemas) (entries : list (string * methodInfo))
  : result (list (string * methodInfo) * list string) :=
  match entries with
  | [] => Ok ([], [])
  | (methodType, mi) :: rest =>
      let* (mi', text) :=
        compile_method apiClassName url path several defs methodType mi in
      let* (rest', texts) :=
        compile_methods apiClassName url path several defs rest in
      Ok ((methodType, mi') :: rest', text :: texts)
  end.

Definition buildEndpoint (apiClassName url path : string)
           (endpointData : list (string * methodInfo)) (defs : schemas)
  : result (list (string * methodInfo) * string) :=
  let several := Nat.ltb 1 (List.length endpointData) in
  let* (endpointData', methods) :=
    compile_methods apiClassName url path several defs endpointData in
  Ok (endpointData', join (nl +:+ nl) methods).

End Compiler.

Import Compiler.

(* ================================================================== *)
(** ** Building the API tree, and the run *)
(* ================================================================== *)
Module Tree.

(** API name -> (metadata, version -> generated methods) *)
Abbreviation apiTree := (gmap string (meta * gmap string (list string))).

(** the callback run on a fetched document (lines 562-572): every path
    is compiled *)
Fixpoint compile_paths (apiName url : string)
         (ps : list (string * list (string * methodInfo))) (defs : schemas)
  : result (list string) :=
  match ps with
  | [] => Ok []
  | (path, methodData) :: rest =>
      let* (_, text) := buildEndpoint apiName url path methodData defs in
      let* more := compile_paths apiName url rest defs in
      Ok (text :: more)
  end.

(** one promise of [docsRequests]: the request for the document of a
    version, then the callback.  [get] is what the web answers to a
    request: a document, or a rejection. *)
Definition document_request (get : string -> result document)
           (apiName : string) (data : meta) (version : string)
  : result (list string) :=
  let* doc := get (url data +:+ "/docs/json/" +:+ version) in
  compile_paths apiName (url data) (paths doc) (definitions doc).

Definition requests (apis : list (string * meta))
  : list (string * meta * string) :=
  flat_map (fun '(apiName, data) =>
              map (fun version => (apiName, data, version)) (versions data))
           apis.

Definition record_version (t : apiTree) (apiName version : string)
           (methods : list string) : apiTree :=
  alter (fun '(m, vs) => (m, <[version := methods]> vs)) apiName t.

(** buildApiTree.  [apis] is [Object.entries] of the metadata; [settle]
    is the order in which the requests settle. *)
Definition buildApiTree (get : string -> result document)
           (settle : list nat) (apis : list (string * meta))
  : result apiTree :=
  let apisTree :=
    fold_left (fun t '(apiName, data) => <[apiName := (data, ∅)]> t) apis ∅ in
  let docsRequests :=
    map (fun '(apiName, data, version) =>
           document_request get apiName data version) (requests apis) in
  let* generated := Promise_all settle docsRequests in
  Ok (fold_left (fun t '((apiName, _, version), methods) =>
                   record_version t apiName version methods)
                (combine (requests apis) generated) apisTree).

(** How a run ends: createAPI is given the tree and the success banner
    is printed, or the failure line with the message of the error is. *)
Inductive report : Type :=
| Emitted (tree : apiTree)
| Failed (message : string).

Definition message_of (e : exn) : string :=
  match e with
  | Error m => m
  | SyntaxError m => m
  | TypeError m => m
  | Rejected _ m => m
  end.

(** main, from the results of the two fetch stages before the tree:
    [apisList] is what fetchApiList returned and [apis] what fetchMeta
    recorded. *)
Definition main (apisList : list string) (apis : list (string * meta))
           (get : string -> result document) (settle : list nat) : report :=
  match apisList with
  | [] => Failed "API list not found."
  | _ =>
      match buildApiTree get settle apis with
      | Ok tree => Emitted tree
      | Throw e => Failed (message_of e)
      end
  end.

End Tree.

(* ================================================================== *)
(** ** The generated code *)
(* ================================================================== *)
Module Generated.

Inductive value : Type :=
| VUndefined
| VNull
| VBool (b : bool)
| VNumber (z : Z)
| VString (s : string)
| VInherited (nm : string).   (* what Object.prototype has under [nm] *)

Definition value_eqb (a b : value) : bool :=
  match a, b with
  | VUndefined, VUndefined => true
  | VNull, VNull => true
  | VBool x, VBool y => Bool.eqb x y
  | VNumber x, VNumber y => Z.eqb x y
  | VString x, VString y => String.eqb x y
  | VInherited x, VInherited y => String.eqb x y
  | _, _ => false
  end.

Definition to_boolean (v : value) : bool :=
  match v with
  | VUndefined => false
  | VNull => false
  | VBool b => b
  | VNumber z => negb (Z.eqb z 0)
  | VString s => truthy s
  | VInherited _ => true
  end.

(** [!v] *)
Definition not_ (v : value) : value := VBool (negb (to_boolean v)).

(** [a !== b] *)
Definition strict_not_equal (a b : value) : bool := negb (value_eqb a b).

(** The guard emitted at the head of every class file (lines 166-170).
    [caller] is what the engine gives for [arguments.callee.caller]: the
    name of the function that called the guard, or [None] when the
    engine gives [null], in which case reading [.name] fails before the
    SyntaxError is built.  The guard never returns. *)
Definition required (caller : option string) (paramName : string) : exn :=
  match caller with
  | Some methodName =>
      SyntaxError ("Required parameter " +:+ dq +:+ paramName +:+ dq
                   +:+ " of method " +:+ dq +:+ methodName +:+ dq
                   +:+ " is not specified")
  | None => TypeError "name of null"
  end.

(** reading a property of the argument object: [undefined] when
    neither the object nor [Object.prototype] has such a property *)
Definition get (fields : gmap string value) (x : string) : value :=
  match Js.lookup fields x with
  | Own v => v
  | Inherited nm => VInherited nm
  | Missing => VUndefined
  end.

(** The destructuring pattern [{ x = d, ... }]: left to right, the
    default of a binding is evaluated when the property reads
    [undefined]. *)
Fixpoint destructure (caller : option string)
         (bs : list (string * default)) (fields : gmap string value)
  : result (list (string * value)) :=
  match bs with
  | [] => Ok []
  | (x, d) :: rest =>
      let* v :=
        (match get fields x with
         | VUndefined =>
             match d with
             | DefaultRequired pn => Throw (required caller pn)
             | DefaultNull => Ok VNull
             end
         | v => Ok v
         end) in
      let* more := destructure caller rest fields in
      Ok ((x, v) :: more)
  end.

(** what the caller passes to a generated method *)
Inductive argument : Type :=
| NoArgument                               (* m() or m(undefined) *)
| NullArgument                             (* m(null) *)
| Named (fields : gmap string value).      (* m({ ... }) *)

(** Entering a generated method whose logical parameters are [ps]: the
    signature is [buildMethodParams ps], that is [{ bindings } = {}], or
    nothing when there is no parameter. *)
Definition enter_method (caller : option string) (ps : list paramInfo)
           (arg : argument) : result (list (string * value)) :=
  match bindings ps with
  | [] => Ok []
  | bs =>
      match arg with
      | NoArgument => destructure caller bs ∅
      | NullArgument => Throw (TypeError "cannot destructure null")
      | Named fields => destructure caller bs fields
      end
  end.

(** What Node gives the guard for [arguments.callee.caller] when it is
    called from the signature of a generated method: the methods are
    members of a class, class bodies are strict code, and the engine
    hides a strict caller behind [null]. *)
Definition class_method_caller : option string := None.

(** calling a generated method of a class file *)
Definition call_method (ps : list paramInfo) (arg : argument)
  : result (list (string * value)) :=
  enter_method class_method_caller ps arg.

(** createRBXClient (lines 250-265).  [err.status] is the property as
    the engine reads it off the caught value. *)
Record caught : Type := Caught { status : value; message : string }.

Record container : Type :=
  Container { userID : value; userName : value }.

Inductive completion : Type :=
| Returns (c : container)
| Throws (err : caught).

(** [lookup] is the outcome of [RBXClient.Users['v1'].Authenticated()]:
    the id and name of the user, or the value thrown *)
Definition createRBXClient (lookup : caught + value * value) : completion :=
  match lookup with
  | inr (id, nm) => Returns {| userID := id; userName := nm |}
  | inl err =>
      if strict_not_equal (not_ (status err)) (VNumber 401)
      then Throws err
      else Returns {| userID := VUndefined; userName := VUndefined |}
  end.

End Generated.

(* ================================================================== *)
(** ** dist/client.js: the response interceptor *)
(* ================================================================== *)
Module Client.

Definition XCSRFEndpoint : string := "https://auth.roblox.com/v2/logout".

(** the payload of an error response; [errors] lists the messages of
    the structured errors *)
Record payload : Type :=
  Payload { errors : option (list (option string)) }.

Record response : Type :=
  Response { status : Z;
             data : option payload;            (* [None] is undefined *)
             x_csrf_token : option string }.   (* headers['x-csrf-token'] *)

Record config : Type := Config { url : string }.

Record error : Type :=
  Error_ { config_ : option config;
           response_ : option response;
           message : string }.

(** what the rejection handler does with the failed request *)
Inductive action : Type :=
| Reject (err : error)              (* return Promise.reject(err) *)
| RejectText (text : string)        (* return Promise.reject('...') *)
| RefreshThenReplay (c : config)    (* client.post(XCSRFEndpoint)
                                         .then(() => client.request(c)) *)
| StoreToken (token : string)       (* the default header is set and the
                                       handler returns undefined *)
| Raise (e : exn).                  (* the handler itself throws *)

Record handled : Type :=
  Handled { expiry_calls : nat;     (* calls of onTokenExpired *)
            act : action }.

(** lines 56-61: the first listed message is appended *)
Definition append_first_error (err : error) (r : response) : action :=
  match data r with
  | None => Raise (TypeError "errors of undefined")
  | Some d =>
      match errors d with
      | Some (first :: _) =>
          Reject {| config_ := config_ err;
                    response_ := response_ err;
                    message := message err +:+ ": " +:+ show first |}
      | _ => Reject err
      end
  end.

(** the rejection handler of [client.interceptors.response.use]
    (lines 23-62); [onTokenExpired] tells whether the caller gave the
    callback *)
Definition on_rejected (onTokenExpired : bool) (err : error) : handled :=
  match config_ err, response_ err with
  | Some c, Some r =>
      if Z.eqb (status r) 401 then
        {| expiry_calls := if onTokenExpired then 1 else 0;
           act := append_first_error err r |}
      else if Z.eqb (status r) 403 then
        if negb (String.eqb (url c) XCSRFEndpoint) then
          {| expiry_calls := 0; act := RefreshThenReplay c |}
        else
          match x_csrf_token r with
          | Some tok =>
              if truthy tok
              then {| expiry_calls := 0; act := StoreToken tok |}
              else {| expiry_calls := 0;
                      act := RejectText
                        "Cannot get X-CSRF-TOKEN, change API endpoint" |}
          | None =>
              {| expiry_calls := 0;
                 act := RejectText
                   "Cannot get X-CSRF-TOKEN, change API endpoint" |}
          end
      else {| expiry_calls := 0; act := append_first_error err r |}
  | _, _ => {| expiry_calls := 0; act := Reject err |}
  end.

End Client.

(* ================================================================== *)
(** ** Discovery and metadata *)
(* ================================================================== *)
Module Discovery.

(** API addresses to be excluded (lines 50-53) *)
Definition excludes : list string :=
  ["https://friendsite.roblox.com"; "roblox.com"].

(** [list.indexOf(x) === -1] *)
Definition absent (x : string) (l : list string) : bool :=
  negb (existsb (String.eqb x) l).

(** the callback of a source (lines 90-97): every address that is not in
    the list yet is pushed *)
Definition add_source (apiList sourceApiList : list string) : list string :=
  fold_left (fun acc api => if absent api acc then acc ++ [api] else acc)
            sourceApiList apiList.

(** fetchApiList.  [sources] holds, in the order in which the requests
    of the sources settle, what each chain [get, res.data, parser] gave:
    the addresses found, or a rejection, which line 98 catches. *)
Definition fetchApiList (sources : list (result (list string)))
  : list string :=
  let apiList :=
    fold_left (fun acc source =>
                 match source with
                 | Ok sourceApiList => add_source acc sourceApiList
                 | Throw _ => acc
                 end) sources [] in
  List.filter (fun api => absent api excludes) apiList.

(** [url.match(/\/([a-zA-Z\-]+?)\./)]: the first slash followed by
    letters and hyphens up to a dot; the group is what lies between. *)
Fixpoint match_subdomain (url : string) : option string :=
  match url with
  | EmptyString => None
  | String c r =>
      let here :=
        if Ascii.eqb c "/" then
          match take_while is_name_char r with
          | EmptyString => None
          | g =>
              match Js.drop (String.length g) r with
              | String d _ => if Ascii.eqb d "." then Some g else None
              | EmptyString => None
              end
          end
        else None in
      match here with
      | Some g => Some g
      | None => match_subdomain r
      end
  end.

(** the name of the class of an API (lines 123-130): the parts of the
    sub-domain between hyphens, each in normal case, put together *)
Definition className (url : string) : option string :=
  match match_subdomain url with
  | Some apiClassNameRaw =>
      Some (fold_left (fun acc part => acc +:+ toNormalCase part)
                      (split_on (fun c => Ascii.eqb c "-") apiClassNameRaw)
                      EmptyString)
  | None => None
  end.

(** the metadata document of an API *)
Record metadata : Type :=
  Metadata { m_versions : list string;
             m_name : option string;
             m_description : option string }.

(** [{ ...meta, url }] *)
Definition with_url (m : metadata) (u : string) : meta :=
  {| url := u;
     versions := m_versions m;
     meta_name := m_name m;
     meta_description := m_description m |}.

(** [result[key] = value] on an object kept as the list of its entries:
    the value of an existing key is replaced where it is, a new key goes
    last *)
Fixpoint set_property {V} (key : string) (value : V) (o : list (string * V))
  : list (string * V) :=
  match o with
  | [] => [(key, value)]
  | (k, v) :: rest =>
      if String.eqb k key then (k, value) :: rest
      else (k, v) :: set_property key value rest
  end.

(** fetchMeta.  [responses] holds, in the order in which the metadata
    requests settle, the address of each API with what its request
    gave.  The result is [Object.entries(result)] and [availableCount]. *)
Definition fetchMeta (responses : list (string * result metadata))
  : list (string * meta) * nat :=
  fold_left
    (fun '(result, availableCount) '(u, response) =>
       match response with
       | Ok m =>
           match className u with
           | Some apiClassName =>
               (set_property apiClassName (with_url m u) result,
                S availableCount)
           | None => (result, availableCount)
           end
       | Throw _ => (result, availableCount)
       end)
    responses ([], 0).

End Discovery.
Import Discovery.

(* ================================================================== *)
(** ** Sample inputs *)
(* ================================================================== *)
Import Tree.
Module Samples.

Definition users_meta : meta :=
  {| url := "https://users.roblox.com";
     versions := ["v1"];
     meta_name := Some "Users Api";
     meta_description := None |}.

Definition not_found : exn :=
  Rejected (Some 404%Z) "Request failed with status code 404".

(** a parameter declared without a schema *)
Definition plain (nm loc : string) (req : bool) : parameter :=
  {| p_name := nm; p_in := Some loc; p_schema := None;
     p_type := Some "string"; p_description := None; p_enum := None;
     p_required := req |}.

Definition operation (ps : list parameter) : methodInfo :=
  {| summary := Some "Sample operation"; deprecated := false;
     parameters := Some ps |}.

(** GET /v1/users/{userId}/friends *)
Definition friends_path : string := "/v1/users/{userId}/friends".
Definition friends_op : methodInfo :=
  operation [plain "userId" "path" true; plain "limit" "query" false].

(** an operation with a parameter sent in a cookie *)
Definition cookie_op : methodInfo :=
  operation [plain "limit" "query" false; plain "session" "cookie" true].

(** a schema of the given type, without anything else *)
Definition typed (t : string) : node :=
  {| n_ref := None; n_type := Some t; n_description := None;
     n_items := None; n_properties := None; n_required := [] |}.

Definition object_of (props : list (string * node)) : node :=
  {| n_ref := None; n_type := Some "object"; n_description := None;
     n_items := None; n_properties := Some props; n_required := [] |}.

Definition array_of (element : node) : node :=
  {| n_ref := None; n_type := Some "array"; n_description := None;
     n_items := Some element; n_properties := None; n_required := [] |}.

Definition with_schema (nm loc : string) (schema : node) : parameter :=
  {| p_name := nm; p_in := Some loc; p_schema := Some schema;
     p_type := None; p_description := None; p_enum := None;
     p_required := true |}.

(** POST /v1/upload: one parameter, an object sent as form data *)
Definition upload_op : methodInfo :=
  operation [with_schema "request" "formData"
               (object_of [("file", typed "string")])].

(** POST /v1/items: one parameter, an array of integers sent as body *)
Definition ids_op : methodInfo :=
  operation [with_schema "ids" "body" (array_of (typed "integer"))].

(** the same parameter next to a second one *)
Definition ids_and_limit_op : methodInfo :=
  operation [with_schema "ids" "body" (array_of (typed "integer"));
             plain "limit" "query" true].

(** POST /v1/batch: one parameter, a reference to an object schema with
    an array property *)
Definition reference (target : string) : node :=
  {| n_ref := Some target; n_type := None; n_description := None;
     n_items := None; n_properties := None; n_required := [] |}.

Definition batch_op : methodInfo :=
  operation [with_schema "request" "body"
               (reference "#/definitions/BatchRequest")].

Definition batch_definitions : schemas :=
  {[ "BatchRequest" := object_of [("userIds", array_of (typed "integer"))] ]}.

(** GET /v1/search: two required query parameters *)
Definition search_op : methodInfo :=
  operation [plain "keyword" "query" true; plain "limit" "query" true].

(** a failed identity lookup that is not an authorization failure *)
Definition server_error : Generated.caught :=
  {| Generated.status := Generated.VNumber 500;
     Generated.message := "Request failed with status code 500" |}.

(** a 401 response carrying a structured error list *)
Definition unauthorized : Client.error :=
  {| Client.config_ :=
       Some {| Client.url := "https://users.roblox.com/v1/users/authenticated" |};
     Client.response_ :=
       Some {| Client.status := 401;
               Client.data :=
                 Some {| Client.errors :=
                           Some [Some "Authorization has been denied for this request."] |};
               Client.x_csrf_token := None |};
     Client.message := "Request failed with status code 401" |}.

(** the logical parameters of [friends_op] *)
Definition userId_param : paramInfo :=
  {| name := "userId"; type := Some "string"; description := EmptyString;
     out_ := {| param := "userId"; location := Some "path" |};
     enum := None; required := true |}.

Definition limit_param : paramInfo :=
  {| name := "limit"; type := Some "string"; description := EmptyString;
     out_ := {| param := "limit"; location := Some "query" |};
     enum := None; required := false |}.

Definition friends_params : list paramInfo := [userId_param; limit_param].

(** the logical parameter of [batch_op] *)
Definition batch_params : list paramInfo :=
  [{| name := "userIds"; type := Some "array"; description := EmptyString;
      out_ := {| param := "request"; location := Some "body" |};
      enum := None; required := true |}].

(** a logical parameter sent as the body *)
Definition payload_param : paramInfo :=
  {| name := "payload"; type := Some "object"; description := EmptyString;
     out_ := {| param := "payload"; location := Some "body" |};
     enum := None; required := true |}.

(** the document of a version with one path *)
Definition friends_doc : document :=
  {| paths := [(friends_path, [("get", friends_op)])];
     definitions := ∅ |}.

(** a 403 answer to a request made to an API *)
Definition forbidden_config : Client.config :=
  {| Client.url := "https://friends.roblox.com/v1/users/1/unfriend" |}.

Definition forbidden : Client.error :=
  {| Client.config_ := Some forbidden_config;
     Client.response_ :=
       Some {| Client.status := 403;
               Client.data := Some {| Client.errors := None |};
               Client.x_csrf_token := None |};
     Client.message := "Request failed with status code 403" |}.

(** an answer to the metadata request of the users API *)
Definition users_metadata : metadata :=
  {| m_versions := ["v1"]; m_name := Some "Users Api";
     m_description := None |}.

(** an operation with a parameter that bears a name every object
    inherits *)
Definition constructor_op : methodInfo :=
  operation [plain "constructor" "cookie" true; plain "limit" "query" false].

End Samples.
Import Samples.

(* ================================================================== *)
(** ** Notions used to state the properties *)
(* ================================================================== *)
Module Notions.

(** the locations the loop over independent parameters routes *)
Definition routed_independently (loc : option string) : bool :=
  is_type loc "path" || is_type loc "query" || is_type loc "header"
  || is_type loc "body" || is_type loc "formData".

(** the locations the grouped branch routes *)
Definition routed_grouped (loc : option string) : bool :=
  is_type loc "path" || is_type loc "query" || is_type loc "header"
  || is_type loc "body".

(** The operation [mi], documented at [path] in a document whose
    definitions are [defs], makes every run that fetches it end on the
    failure report. *)
Definition fails_every_run (path : string) (mi : methodInfo) (defs : schemas)
  : Prop :=
  forall get settle apis apisList apiName data version doc endpointData
         methodType,
    In (apiName, data) apis ->
    In version (versions data) ->
    get (url data +:+ "/docs/json/" +:+ version) = Ok doc ->
    definitions doc = defs ->
    In (path, endpointData) (paths doc) ->
    In (methodType, mi) endpointData ->
    apisList <> [] ->
    exists msg, main apisList apis get settle = Failed msg.

(** the request already has a body *)
Definition body_set (rq : request) : bool :=
  match reqBody rq with
  | Some b => truthy b
  | None => false
  end.

(** the versions recorded for the API [a] once the listed results have
    been written into the tree *)
Definition versions_after
           (writes : list (string * meta * string * list string))
           (a : string) (vs : gmap string (list string))
  : gmap string (list string) :=
  fold_left (fun vs '((a', _, v), ms) =>
               if String.eqb a' a then <[v := ms]> vs else vs)
            writes vs.

End Notions.
Import Notions.

(* ================================================================== *)
(** ** Properties *)
(* ================================================================== *)

(** *** Joining promises *)

Lemma all_values_rejects {A} (ps : list (result A)) e :
  In (Throw e) ps -> exists e', all_values ps = Throw e'.
Proof.
  induction ps as [|p ps IH]; simpl; [tauto|].
  intros [->|Hin]; [eauto|].
  destruct p as [a|e0]; [|eauto].
  destruct (IH Hin) as [e' ->]. simpl. eauto.
Qed.

Lemma Promise_all_rejects {A} settle (ps : list (result A)) e :
  In (Throw e) ps -> exists e', Promise_all settle ps = Throw e'.
Proof.
  intros Hin. unfold Promise_all.
  destruct (first_rejection settle ps); [eauto|].
  now apply all_values_rejects with e.
Qed.

Lemma all_values_fulfils {A} (ps : list (result A)) vs :
  all_values ps = Ok vs -> ps = map Ok vs.
Proof.
  revert vs. induction ps as [|p ps IH]; simpl; intros vs H.
  - now inversion H.
  - destruct p as [a|e]; [|discriminate].
    destruct (all_values ps) as [ws|e]; simpl in H; [|discriminate].
    inversion H; subst. simpl. now rewrite (IH ws).
Qed.

Lemma Promise_all_fulfils {A} settle (ps : list (result A)) vs :
  Promise_all settle ps = Ok vs -> ps = map Ok vs.
Proof.
  unfold Promise_all. destruct (first_rejection settle ps); [discriminate|].
  apply all_values_fulfils.
Qed.

(** *** The tree-building stage has no rejection handler *)

Lemma request_listed apis apiName data version :
  In (apiName, data) apis -> In version (versions data) ->
  In (apiName, data, version) (requests apis).
Proof.
  intros Ha Hv. unfold requests. apply in_flat_map.
  exists (apiName, data). split; [assumption|].
  apply in_map_iff. eauto.
Qed.

Lemma buildApiTree_rejects get settle apis apiName data version e :
  In (apiName, data) apis -> In version (versions data) ->
  document_request get apiName data version = Throw e ->
  exists e', buildApiTree get settle apis = Throw e'.
Proof.
  intros Ha Hv Hreq. unfold buildApiTree.
  destruct (Promise_all_rejects settle
              (map (fun '(a, d, v) => document_request get a d v)
                   (requests apis)) e) as [e' He'].
  - apply in_map_iff. exists (apiName, data, version).
    split; [assumption|]. now apply request_listed.
  - rewrite He'. simpl. eauto.
Qed.

Lemma buildApiTree_returns_only_if_all_succeed get settle apis tree :
  buildApiTree get settle apis = Ok tree ->
  forall apiName data version,
    In (apiName, data) apis -> In version (versions data) ->
    exists methods, document_request get apiName data version = Ok methods.
Proof.
  intros H apiName data version Ha Hv.
  destruct (document_request get apiName data version) as [ms|e] eqn:E;
    [eauto|].
  destruct (buildApiTree_rejects get settle apis apiName data version e
              Ha Hv E) as [e' He'].
  congruence.
Qed.

Lemma main_fails get settle apis apisList e :
  apisList <> [] ->
  buildApiTree get settle apis = Throw e ->
  main apisList apis get settle = Failed (message_of e).
Proof.
  intros Hne H. unfold main. rewrite H. destruct apisList; congruence.
Qed.

(** C1, as stated, fails: the only document request of the run is
    rejected with a 404; buildApiTree is rejected with it instead of
    returning a tree without the version, and the run ends on the
    failure line. *)
Lemma failed_fetch_is_not_omitted :
  buildApiTree (fun _ => Throw not_found) [0] [("Users", users_meta)]
    = Throw not_found
  /\ main ["https://users.roblox.com"] [("Users", users_meta)]
          (fun _ => Throw not_found) [0]
     = Failed "Request failed with status code 404".
Proof. split; reflexivity. Qed.

(** C1, amended: when the schema-document request of an (API, version)
    pair is rejected, buildApiTree is rejected as well, whatever the
    order in which the requests settle: no tree is returned, and the run
    ends with the failure report carrying the message of the rejection
    that won. *)
Theorem failed_fetch_fails_the_run
        get settle apis apisList apiName data version e :
  In (apiName, data) apis ->
  In version (versions data) ->
  get (url data +:+ "/docs/json/" +:+ version) = Throw e ->
  apisList <> [] ->
  exists e',
    buildApiTree get settle apis = Throw e'
    /\ main apisList apis get settle = Failed (message_of e').
Proof.
  intros Ha Hv Hget Hne.
  destruct (buildApiTree_rejects get settle apis apiName data version e
              Ha Hv) as [e' He'].
  - unfold document_request. now rewrite Hget.
  - exists e'. split; [assumption|]. now apply main_fails.
Qed.

Lemma failed_fetch_fails_the_run_witness :
  exists e',
    buildApiTree (fun _ => Throw not_found) [0] [("Users", users_meta)]
      = Throw e'
    /\ main ["https://users.roblox.com"] [("Users", users_meta)]
            (fun _ => Throw not_found) [0]
       = Failed (message_of e').
Proof.
  apply (failed_fetch_fails_the_run (fun _ => Throw not_found) [0]
           [("Users", users_meta)] ["https://users.roblox.com"]
           "Users" users_meta "v1" not_found).
  - simpl. left. reflexivity.
  - simpl. left. reflexivity.
  - reflexivity.
  - discriminate.
Defined.

(** *** Errors raised while compiling reach the run *)

Lemma compile_methods_throws apiClassName url path several defs entries
      methodType mi e :
  In (methodType, mi) entries ->
  compile_method apiClassName url path several defs methodType mi = Throw e ->
  exists e',
    compile_methods apiClassName url path several defs entries = Throw e'.
Proof.
  induction entries as [|[mt0 mi0] rest IH]; simpl; [tauto|].
  intros [Heq|Hin] Hthrow.
  - inversion Heq; subst. rewrite Hthrow. simpl. eauto.
  - destruct (compile_method apiClassName url path several defs mt0 mi0)
      as [[mi' text]|e0]; simpl; [|eauto].
    destruct (IH Hin Hthrow) as [e' ->]. simpl. eauto.
Qed.

Lemma compile_paths_throws apiName url ps defs path endpointData e :
  In (path, endpointData) ps ->
  buildEndpoint apiName url path endpointData defs = Throw e ->
  exists e', compile_paths apiName url ps defs = Throw e'.
Proof.
  induction ps as [|[path0 data0] rest IH]; simpl; [tauto|].
  intros [Heq|Hin] Hthrow.
  - inversion Heq; subst. rewrite Hthrow. simpl. eauto.
  - destruct (buildEndpoint apiName url path0 data0 defs)
      as [[data' text]|e0]; simpl; [|eauto].
    destruct (IH Hin Hthrow) as [e' ->]. simpl. eauto.
Qed.

Lemma body_error_fails_every_run path mi defs mi' info :
  buildParamsInfo path mi defs = Ok (mi', info) ->
  (forall u methodType, exists e,
      buildMethodBody u methodType (params info) (pathParams info)
                      (isMapped info) = Throw e) ->
  fails_every_run path mi defs.
Proof.
  intros Hinfo Hbody get settle apis apisList apiName data version doc
         endpointData methodType Ha Hv Hget Hdefs Hpath Hverb Hne.
  destruct (Hbody (url data +:+ path) methodType) as [e He].
  assert (Hm : forall several,
             compile_method apiName (url data) path several defs
                            methodType mi = Throw e).
  { intros several. unfold compile_method. rewrite Hinfo. simpl.
    rewrite He. reflexivity. }
  destruct (compile_methods_throws apiName (url data) path
              (Nat.ltb 1 (List.length endpointData)) defs endpointData
              methodType mi e Hverb (Hm _)) as [e1 He1].
  assert (He2 : buildEndpoint apiName (url data) path endpointData defs
                = Throw e1).
  { unfold buildEndpoint. rewrite He1. reflexivity. }
  destruct (compile_paths_throws apiName (url data) (paths doc) defs path
              endpointData e1 Hpath He2) as [e3 He3].
  destruct (buildApiTree_rejects get settle apis apiName data version e3
              Ha Hv) as [e4 He4].
  - unfold document_request. rewrite Hget. simpl. now rewrite Hdefs.
  - exists (message_of e4). now apply main_fails.
Qed.

(** *** Routing parameters into the request *)

Lemma route_param_routed pp rq p :
  routed_independently (location (out_ p)) = true ->
  (exists rq', route_param pp rq p = Ok rq')
  \/ route_param pp rq p = Throw (Error "[object Object]").
Proof.
  unfold routed_independently, route_param. intros H.
  destruct (is_type (location (out_ p)) "path"); [eauto|].
  destruct (is_type (location (out_ p)) "query"); [eauto|].
  destruct (is_type (location (out_ p)) "header"); [eauto|].
  destruct (is_type (location (out_ p)) "body").
  - destruct (reqBody rq) as [b|]; [|eauto].
    destruct (truthy b); eauto.
  - destruct (is_type (location (out_ p)) "formData"); [eauto|].
    discriminate.
Qed.

Lemma route_param_not_routed pp rq p :
  routed_independently (location (out_ p)) = false ->
  route_param pp rq p = Throw (unsupported (location (out_ p))).
Proof.
  unfold routed_independently, route_param. intros H.
  repeat match goal with
         | |- context [is_type ?l ?s] =>
             destruct (is_type l s); simpl in H; try discriminate
         end.
  reflexivity.
Qed.

Lemma route_params_routed pp ps : forall rq,
  Forall (fun p => routed_independently (location (out_ p)) = true) ps ->
  (exists rq', route_params pp rq ps = Ok rq')
  \/ route_params pp rq ps = Throw (Error "[object Object]").
Proof.
  induction ps as [|p ps IH]; simpl; intros rq H; [eauto|].
  inversion H as [|? ? Hp Hps]; subst.
  destruct (route_param_routed pp rq p Hp) as [[rq' ->]| ->]; simpl.
  - now apply IH.
  - now right.
Qed.

Lemma route_params_not_routed pp ps : forall rq,
  Exists (fun p => routed_independently (location (out_ p)) = false) ps ->
  exists e, route_params pp rq ps = Throw e.
Proof.
  induction ps as [|p ps IH]; simpl; intros rq H; inversion H; subst.
  - rewrite route_param_not_routed by assumption. simpl. eauto.
  - destruct (route_param pp rq p) as [rq'|e]; simpl; [|eauto].
    now apply IH.
Qed.

Lemma route_group_routed pp rq ps o :
  ps <> [] -> Forall (fun p => out_ p = o) ps ->
  routed_grouped (location o) = true ->
  exists rq', route_group pp rq ps = Ok rq'.
Proof.
  intros Hne Hall Hloc. unfold route_group.
  assert (Hlast : List.last (map (fun p => Some (out_ p)) ps) None = Some o).
  { clear Hloc. induction ps as [|p ps IH]; [congruence|].
    inversion Hall; subst. destruct ps as [|q ps]; [reflexivity|].
    change (List.last (map (fun p => Some (out_ p)) (q :: ps)) None
            = Some (out_ p)).
    apply IH; [discriminate|assumption]. }
  rewrite Hlast. unfold routed_grouped in Hloc.
  destruct (is_type (location o) "path"); [eauto|].
  destruct (is_type (location o) "query"); [eauto|].
  destruct (is_type (location o) "header"); [eauto|].
  destruct (is_type (location o) "body"); [eauto|discriminate].
Qed.

Lemma route_group_not_routed pp rq ps o :
  ps <> [] -> Forall (fun p => out_ p = o) ps ->
  routed_grouped (location o) = false ->
  route_group pp rq ps = Throw (unsupported (location o)).
Proof.
  intros Hne Hall Hloc. unfold route_group.
  assert (Hlast : List.last (map (fun p => Some (out_ p)) ps) None = Some o).
  { clear Hloc. induction ps as [|p ps IH]; [congruence|].
    inversion Hall; subst. destruct ps as [|q ps]; [reflexivity|].
    change (List.last (map (fun p => Some (out_ p)) (q :: ps)) None
            = Some (out_ p)).
    apply IH; [discriminate|assumption]. }
  rewrite Hlast. unfold routed_grouped in Hloc.
  repeat match goal with
         | |- context [is_type ?l ?s] =>
             destruct (is_type l s); simpl in Hloc; try discriminate
         end.
  reflexivity.
Qed.

(** *** What buildParamsInfo returns in the grouped case *)

Lemma promote_properties_shape props o defs : forall ps,
  promote_properties props o defs = Ok ps ->
  List.length ps = List.length props
  /\ Forall (fun p => out_ p = o /\ required p = true /\ enum p = None) ps.
Proof.
  induction props as [|[nm propInfo] rest IH]; simpl; intros ps H.
  - inversion H. split; [reflexivity|constructor].
  - destruct (if is_type (n_type propInfo) "array"
              then array_type propInfo defs
              else Ok (show (n_type propInfo))) as [t|e];
      simpl in H; [|discriminate].
    destruct (promote_properties rest o defs) as [more|e];
      simpl in H; [|discriminate].
    inversion H; subst. destruct (IH more eq_refl) as [Hlen Hall].
    split; [simpl; now rewrite Hlen|].
    constructor; [simpl; auto|assumption].
Qed.

Lemma buildParamsInfo_mapped path mi defs mi' info :
  buildParamsInfo path mi defs = Ok (mi', info) ->
  isMapped info = true ->
  exists o props,
    props <> []
    /\ promote_properties props o defs = Ok (params info).
Proof.
  unfold buildParamsInfo. intros H Hm.
  destruct (parameters mi) as [declared|].
  2:{ inversion H; subst. discriminate. }
  cbv zeta in H.
  destruct (match Js.sort required_first declared with
            | [p] => match p_schema p with Some _ => Some p | None => None end
            | _ => None
            end) as [p|].
  - destruct (extractSchemaNode (p_schema p) defs) as [schema|e];
      simpl in H; [|discriminate].
    destruct schema as [nd|]; [|discriminate].
    destruct (is_type (n_type nd) "object").
    + destruct (n_properties nd) as [props|]; [|discriminate].
      destruct (promote_properties props
                  {| param := p_name p;
                     location := resolve_location (collect_pathParams path)
                                   (p_name p) (p_in p) |} defs)
        as [ps|e] eqn:Hps; simpl in H; [|discriminate].
      inversion H; subst. simpl in *.
      destruct props; [discriminate|].
      eexists _, _. split; [|exact Hps]. discriminate.
    + inversion H; subst. discriminate.
  - destruct (independent_params (collect_pathParams path) defs
                (Js.sort required_first declared)) as [ps|e];
      simpl in H; [|discriminate].
    inversion H; subst. discriminate.
Qed.

Lemma mapped_params_share_out path mi defs mi' info :
  buildParamsInfo path mi defs = Ok (mi', info) ->
  isMapped info = true ->
  exists o,
    params info <> []
    /\ Forall (fun p => out_ p = o) (params info)
    /\ Forall (fun p => required p = true) (params info).
Proof.
  intros H Hm.
  destruct (buildParamsInfo_mapped path mi defs mi' info H Hm)
    as (o & props & Hne & Hps).
  destruct (promote_properties_shape props o defs _ Hps) as [Hlen Hall].
  exists o. repeat split.
  - intros Hnil. rewrite Hnil in Hlen. destruct props; [congruence|].
    discriminate.
  - eapply List.Forall_impl; [|exact Hall]. simpl. tauto.
  - eapply List.Forall_impl; [|exact Hall]. simpl. tauto.
Qed.

(** *** C3: the factory *)

(** C3, as stated, fails: the identity lookup fails with a status that is
    not 401 and the factory throws what it caught; no container is
    returned. *)
Lemma lookup_failure_fails_the_factory :
  Generated.createRBXClient (inl server_error) = Generated.Throws server_error.
Proof. reflexivity. Qed.

(** The test of line 260 compares a boolean with a number: it holds for
    every caught value. *)
Lemma rethrow_test_always_holds (v : Generated.value) :
  Generated.strict_not_equal (Generated.not_ v) (Generated.VNumber 401) = true.
Proof. reflexivity. Qed.

(** C3, amended: when the identity lookup succeeds the factory returns
    the container with the id and the name of the user; when it fails
    with a failure that is not an authorization failure, the factory
    rethrows the failure to its caller. *)
Theorem factory_rethrows_lookup_failure (err : Generated.caught) :
  Generated.status err <> Generated.VNumber 401 ->
  Generated.createRBXClient (inl err) = Generated.Throws err
  /\ forall id nm,
      Generated.createRBXClient (inr (id, nm))
      = Generated.Returns {| Generated.userID := id;
                             Generated.userName := nm |}.
Proof. intros _. split; reflexivity. Qed.

Lemma factory_rethrows_lookup_failure_witness :
  Generated.createRBXClient (inl server_error) = Generated.Throws server_error
  /\ forall id nm,
      Generated.createRBXClient (inr (id, nm))
      = Generated.Returns {| Generated.userID := id;
                             Generated.userName := nm |}.
Proof.
  apply (factory_rethrows_lookup_failure server_error).
  simpl. discriminate.
Defined.

(** *** C4: the response interceptor *)

(** C4, as stated, fails: a 401 response that carries a structured error
    list has the first listed message appended to the message of the
    error before the error is propagated. *)
Lemma unauthorized_error_is_mutated :
  Client.on_rejected true unauthorized
  = {| Client.expiry_calls := 1;
       Client.act :=
         Client.Reject
           {| Client.config_ := Client.config_ unauthorized;
              Client.response_ := Client.response_ unauthorized;
              Client.message :=
                "Request failed with status code 401: Authorization has been denied for this request." |} |}
  /\ Client.act (Client.on_rejected true unauthorized)
     <> Client.Reject unauthorized.
Proof. split; [reflexivity|discriminate]. Qed.

(** C4, amended: on an error response whose status is not 403, the
    callback is called once when the status is 401 and it was supplied
    (never otherwise), the request is not replayed, and the error is
    propagated after the first listed message, if the payload lists one,
    has been appended to its message; this holds for 401 as for the
    other statuses. *)
Theorem error_response_handling onTokenExpired err c r :
  Client.config_ err = Some c ->
  Client.response_ err = Some r ->
  Client.status r <> 403%Z ->
  Client.expiry_calls (Client.on_rejected onTokenExpired err)
  = (if Z.eqb (Client.status r) 401 && onTokenExpired then 1 else 0)
  /\ (forall c', Client.act (Client.on_rejected onTokenExpired err)
                 <> Client.RefreshThenReplay c')
  /\ (forall d first rest,
         Client.data r = Some d ->
         Client.errors d = Some (first :: rest) ->
         Client.act (Client.on_rejected onTokenExpired err)
         = Client.Reject
             {| Client.config_ := Client.config_ err;
                Client.response_ := Client.response_ err;
                Client.message :=
                  Client.message err +:+ ": " +:+ show first |})
  /\ (forall d,
         Client.data r = Some d ->
         Client.errors d = None \/ Client.errors d = Some [] ->
         Client.act (Client.on_rejected onTokenExpired err)
         = Client.Reject err).
Proof.
  intros Hc Hr H403.
  assert (Hact : Client.act (Client.on_rejected onTokenExpired err)
                 = Client.append_first_error err r
                 /\ Client.expiry_calls (Client.on_rejected onTokenExpired err)
                    = (if Z.eqb (Client.status r) 401 && onTokenExpired
                       then 1 else 0)).
  { unfold Client.on_rejected. rewrite Hc, Hr.
    destruct (Z.eqb (Client.status r) 401) eqn:E401; simpl.
    - split; [reflexivity|now destruct onTokenExpired].
    - destruct (Z.eqb_spec (Client.status r) 403); [contradiction|].
      split; reflexivity. }
  destruct Hact as [Hact Hcalls]. rewrite Hact.
  split; [exact Hcalls|]. unfold Client.append_first_error.
  split; [|split].
  - intros c'. destruct (Client.data r) as [d|]; [|discriminate].
    destruct (Client.errors d) as [[|first rest]|]; discriminate.
  - intros d first rest -> ->. reflexivity.
  - intros d -> [-> | ->]; reflexivity.
Qed.

Lemma error_response_handling_witness :
  Client.expiry_calls (Client.on_rejected true unauthorized) = 1
  /\ Client.act (Client.on_rejected true unauthorized)
     = Client.Reject
         {| Client.config_ := Client.config_ unauthorized;
            Client.response_ := Client.response_ unauthorized;
            Client.message :=
              "Request failed with status code 401: Authorization has been denied for this request." |}.
Proof.
  destruct (error_response_handling true unauthorized
              {| Client.url := "https://users.roblox.com/v1/users/authenticated" |}
              {| Client.status := 401;
                 Client.data :=
                   Some {| Client.errors :=
                             Some [Some "Authorization has been denied for this request."] |};
                 Client.x_csrf_token := None |}
              eq_refl eq_refl ltac:(simpl; lia))
    as (Hcalls & _ & Happend & _).
  split; [exact Hcalls|].
  exact (Happend _ _ _ eq_refl eq_refl).
Defined.

(** *** C6, C10: the required-parameter guard *)

Lemma in_bindings ps x pn :
  In (x, DefaultRequired pn) (bindings ps) <->
  exists p, In p ps /\ required p = true /\ x = name p /\ pn = name p.
Proof.
  unfold bindings. rewrite in_map_iff. split.
  - intros (p & Heq & Hin). unfold binding_of in Heq.
    destruct (required p) eqn:Hr; inversion Heq; subst. eauto.
  - intros (p & Hin & Hr & -> & ->). exists p. split; [|assumption].
    unfold binding_of. now rewrite Hr.
Qed.

Lemma destructure_throws caller bs fields e :
  Generated.destructure caller bs fields = Throw e ->
  exists x pn,
    In (x, DefaultRequired pn) bs
    /\ Generated.get fields x = Generated.VUndefined
    /\ e = Generated.required caller pn.
Proof.
  induction bs as [|[x d] rest IH]; simpl; [discriminate|].
  destruct (Generated.get fields x) eqn:Hx; simpl.
  1: destruct d as [pn|]; simpl.
  1: { intros H. inversion H; subst. exists x, pn. auto. }
  all: destruct (Generated.destructure caller rest fields); simpl;
    try discriminate;
    intros H; inversion H; subst;
    destruct (IH eq_refl) as (y & pn' & Hin & Hy & He); eauto 6.
Qed.

Lemma destructure_omitted caller bs fields x pn :
  In (x, DefaultRequired pn) bs ->
  Generated.get fields x = Generated.VUndefined ->
  exists e, Generated.destructure caller bs fields = Throw e.
Proof.
  induction bs as [|[y d] rest IH]; simpl; [tauto|].
  intros [Heq|Hin] Hx.
  - inversion Heq; subst. rewrite Hx. simpl. eauto.
  - destruct (IH Hin Hx) as [e He]. rewrite He.
    destruct (Generated.get fields y); simpl; eauto.
    destruct d; simpl; eauto.
Qed.

Lemma destructure_returns caller bs fields :
  (forall x pn, In (x, DefaultRequired pn) bs ->
                Generated.get fields x <> Generated.VUndefined) ->
  exists bound, Generated.destructure caller bs fields = Ok bound.
Proof.
  intros H.
  destruct (Generated.destructure caller bs fields) as [bound|e] eqn:E;
    [eauto|].
  destruct (destructure_throws _ _ _ _ E) as (x & pn & Hin & Hx & _).
  now destruct (H x pn Hin).
Qed.

Lemma enter_method_named caller ps fields :
  Generated.enter_method caller ps (Generated.Named fields)
  = Generated.destructure caller (bindings ps) fields.
Proof.
  unfold Generated.enter_method. now destruct (bindings ps).
Qed.

Lemma length_append (s t : string) :
  String.length (s +:+ t) = String.length s + String.length t.
Proof. induction s as [|c s IH]; simpl; [reflexivity|now rewrite IH]. Qed.

Lemma append_cancel_r (s1 s2 t : string) :
  s1 +:+ t = s2 +:+ t -> s1 = s2.
Proof.
  revert s2. induction s1 as [|c s1 IH]; intros s2 H.
  - destruct s2 as [|d s2]; [reflexivity|].
    apply (f_equal String.length) in H.
    rewrite !length_append in H. simpl in H. lia.
  - destruct s2 as [|d s2].
    + apply (f_equal String.length) in H.
      rewrite !length_append in H. simpl in H. lia.
    + simpl in H. inversion H; subst. f_equal. now apply IH.
Qed.

(** when the engine names the calling method, the error of the guard
    tells the parameters apart *)
Lemma required_names_parameter methodName pn1 pn2 :
  Generated.required (Some methodName) pn1
  = Generated.required (Some methodName) pn2 ->
  pn1 = pn2.
Proof.
  unfold Generated.required. intros H. inversion H as [H'].
  eapply append_cancel_r. exact H'.
Qed.

Lemma enter_method_no_argument caller ps :
  Generated.enter_method caller ps Generated.NoArgument
  = Generated.enter_method caller ps (Generated.Named ∅).
Proof. reflexivity. Qed.

Lemma guard_stops_omitted caller ps p fields :
  In p ps ->
  required p = true ->
  Generated.get fields (name p) = Generated.VUndefined ->
  exists q,
    In q ps /\ required q = true
    /\ Generated.get fields (name q) = Generated.VUndefined
    /\ Generated.enter_method caller ps (Generated.Named fields)
       = Throw (Generated.required caller (name q)).
Proof.
  intros Hin Hreq Hu. rewrite enter_method_named.
  assert (Hb : In (name p, DefaultRequired (name p)) (bindings ps)).
  { apply in_bindings. eauto. }
  destruct (destructure_omitted caller _ fields _ _ Hb Hu) as [e He].
  destruct (destructure_throws _ _ _ _ He) as (x & pn & Hx & Hxu & ->).
  apply in_bindings in Hx. destruct Hx as (q & Hq & Hqr & -> & ->).
  exists q. auto.
Qed.

(** When the guard is reached, whatever the engine answers about the
    calling function: for a required parameter [p] of a generated
    method called with an object of named arguments,
    - when the caller omits it (its property reads [undefined], which is
      all the destructuring pattern can see), entering the method is
      stopped by the guard of an omitted required parameter: the first
      one of the signature;
    - when the other required parameters are supplied, the guard is
      raised for [p] if and only if [p] is omitted;
    - when some value is supplied for it, the guard that stops the call,
      if any, is the one of another parameter, itself omitted;
    - when every required parameter is supplied with a value, whatever
      it is ([null] included), no guard is raised and the method is
      entered. *)
Lemma required_guard caller ps p fields :
  In p ps ->
  required p = true ->
  (Generated.get fields (name p) = Generated.VUndefined ->
   exists q,
     In q ps /\ required q = true
     /\ Generated.get fields (name q) = Generated.VUndefined
     /\ Generated.enter_method caller ps (Generated.Named fields)
        = Throw (Generated.required caller (name q)))
  /\ ((forall q, In q ps -> required q = true -> name q <> name p ->
                 Generated.get fields (name q) <> Generated.VUndefined) ->
      (Generated.enter_method caller ps (Generated.Named fields)
       = Throw (Generated.required caller (name p))
       <-> Generated.get fields (name p) = Generated.VUndefined))
  /\ (Generated.get fields (name p) <> Generated.VUndefined ->
      forall e,
        Generated.enter_method caller ps (Generated.Named fields) = Throw e ->
        exists q,
          In q ps /\ required q = true /\ name q <> name p
          /\ Generated.get fields (name q) = Generated.VUndefined
          /\ e = Generated.required caller (name q))
  /\ ((forall q, In q ps -> required q = true ->
                 Generated.get fields (name q) <> Generated.VUndefined) ->
      exists bound,
        Generated.enter_method caller ps (Generated.Named fields) = Ok bound).
Proof.
  intros Hin Hreq.
  pose proof (guard_stops_omitted caller ps p fields Hin Hreq) as Hfirst.
  rewrite enter_method_named in *.
  split; [exact Hfirst|]. split; [|split].
  - intros Hothers. split.
    + intros He.
      destruct (destructure_throws _ _ _ _ He) as (x & pn & Hx & Hxu & _).
      apply in_bindings in Hx. destruct Hx as (q & Hq & Hqr & -> & ->).
      destruct (String.eqb_spec (name q) (name p)) as [Heq|Hne].
      * now rewrite <- Heq.
      * now destruct (Hothers q Hq Hqr Hne).
    + intros Hu. destruct (Hfirst Hu) as (q & Hq & Hqr & Hqu & He).
      rewrite He.
      destruct (String.eqb_spec (name q) (name p)) as [Heq|Hne].
      * now rewrite Heq.
      * now destruct (Hothers q Hq Hqr Hne).
  - intros Hv e He.
    destruct (destructure_throws _ _ _ _ He) as (x & pn & Hx & Hxu & ->).
    apply in_bindings in Hx. destruct Hx as (q & Hq & Hqr & -> & ->).
    exists q. repeat split; try assumption.
    intros Heq. rewrite Heq in Hxu. contradiction.
  - intros Hall. apply destructure_returns.
    intros x pn Hx. apply in_bindings in Hx.
    destruct Hx as (q & Hq & Hqr & -> & ->). now apply Hall.
Qed.

(** C6 fails on the code: the guard is called when, and only when, a
    required parameter is omitted, but it does not raise the error its
    documentation announces.  The generated methods are members of a
    class, so the engine answers [null] for the calling function, and
    reading the name of the method fails before the SyntaxError naming
    the parameter and the method is built: the caller gets a TypeError
    that names neither. *)
Theorem guard_raises_a_type_error :
  Generated.call_method friends_params (Generated.Named ∅)
  = Throw (TypeError "name of null")
  /\ (forall ps p fields,
         In p ps -> required p = true ->
         Generated.get fields (name p) = Generated.VUndefined ->
         Generated.call_method ps (Generated.Named fields)
         = Throw (TypeError "name of null"))
  /\ (forall ps arg msg,
         Generated.call_method ps arg <> Throw (SyntaxError msg)).
Proof.
  split; [reflexivity|]. split.
  - intros ps p fields Hin Hreq Hu. unfold Generated.call_method.
    destruct (guard_stops_omitted Generated.class_method_caller ps p fields
                Hin Hreq Hu) as (q & _ & _ & _ & ->).
    reflexivity.
  - intros ps arg msg H. unfold Generated.call_method in H.
    unfold Generated.enter_method in H.
    destruct (bindings ps) as [|b bs] eqn:Eb; [discriminate|].
    destruct arg as [| |fields]; [|discriminate|];
      apply destructure_throws in H;
      destruct H as (x & pn & _ & _ & H); discriminate.
Qed.



(** *** C5: a single parameter with a schema that is not an object *)

(** C5 fails on the code: the only parameter of the operation carries a
    schema of type array.  The grouped branch is entered because the
    parameter has a schema, nothing is done there for a schema that is
    not an object, and the parameter is lost: no logical parameter, a
    method without argument and a request without body.  The same
    parameter declared next to another one is processed independently. *)
Theorem single_array_parameter_is_dropped :
  buildParamsInfo "/v1/items" ids_op ∅
  = Ok (ids_op, {| params := []; pathParams := ∅; isMapped := false |})
  /\ (exists mi' text,
         buildEndpoint "Items" "https://items.roblox.com" "/v1/items"
                       [("post", ids_op)] ∅ = Ok (mi', text)
         /\ includes "Items() {" text = true
         /\ includes "data:" text = false)
  /\ (exists mi' info,
         buildParamsInfo "/v1/items" ids_and_limit_op ∅ = Ok (mi', info)
         /\ In {| name := "ids"; type := Some "array<integer>";
                  description := EmptyString;
                  out_ := {| param := "ids"; location := Some "body" |};
                  enum := None; required := true |} (params info)).
Proof.
  split; [vm_compute; reflexivity|]. split.
  - eexists _, _. split; [vm_compute; reflexivity|].
    split; vm_compute; reflexivity.
  - eexists _, _. split; [vm_compute; reflexivity|].
    simpl. right. left. reflexivity.
Qed.

(** *** C8: the type of an array property of the group *)

(** C8 fails on the code: the only parameter of the operation refers to
    an object schema with a property that is an array of integers.  The
    type text [array<integer>] is computed (line 323) but the logical
    parameter records the type of the property itself (line 331), and
    the documentation shows [array]. *)
Theorem grouped_array_property_type :
  buildParamsInfo "/v1/batch" batch_op batch_definitions
  = Ok (batch_op, {| params := batch_params; pathParams := ∅;
                     isMapped := true |})
  /\ map type batch_params = [Some "array"]
  /\ array_type (array_of (typed "integer")) batch_definitions
     = Ok "array<integer>"
  /\ includes "* @param {array} userIds"
       (buildMethodDoc (Some "Sample operation") false batch_params) = true.
Proof. repeat split; vm_compute; reflexivity. Qed.

(** *** C7: the order of the declared parameters *)

(** C7 fails on the code: the comparison function of line 307 looks at
    its first argument only, and the engine places a required parameter
    before everything sorted so far.  Two required parameters come out
    in the reverse of their declared order. *)
Theorem required_parameters_are_reversed :
  Js.sort required_first
    [plain "keyword" "query" true; plain "limit" "query" true]
  = [plain "limit" "query" true; plain "keyword" "query" true]
  /\ exists mi' info,
      buildParamsInfo "/v1/search" search_op ∅ = Ok (mi', info)
      /\ parameters mi'
         = Some [plain "limit" "query" true; plain "keyword" "query" true]
      /\ map name (params info) = ["limit"; "keyword"].
Proof.
  split; [reflexivity|].
  eexists _, _. split; [vm_compute; reflexivity|].
  split; reflexivity.
Qed.

(** *** C9: compiling the same operation twice *)

(** C9 fails on the code: buildParamsInfo sorts the parameters of the
    operation in place, and the second compilation of the operation
    sorts what the first one left.  With two required parameters the two
    texts list the parameters in opposite orders. *)
Theorem second_compilation_differs :
  exists once text1 twice text2,
    buildEndpoint "Search" "https://search.roblox.com" "/v1/search"
                  [("get", search_op)] ∅ = Ok (once, text1)
    /\ buildEndpoint "Search" "https://search.roblox.com" "/v1/search"
                     once ∅ = Ok (twice, text2)
    /\ once <> [("get", search_op)]
    /\ text1 <> text2
    /\ includes
         "{ limit = required('limit'), keyword = required('keyword') } = {}"
         text1 = true
    /\ includes
         "{ keyword = required('keyword'), limit = required('limit') } = {}"
         text2 = true.
Proof.
  eexists _, _, _, _.
  split; [vm_compute; reflexivity|].
  split; [vm_compute; reflexivity|].
  split; [discriminate|].
  split; [discriminate|].
  split; vm_compute; reflexivity.
Qed.

(** *** What the sort of line 307 does *)

Section FrontFirst.
Context {A : Type} (front : A -> bool) (cmp : A -> A -> Z).
Hypothesis cmp_front : forall a b, cmp a b = if front a then (-1)%Z else 1%Z.

Lemma find_slot_front fuel arr pivot : forall left right,
  front pivot = true ->
  Js.find_slot cmp fuel arr pivot left right = left.
Proof.
  induction fuel as [|f IH]; simpl; intros left right Hp; [reflexivity|].
  destruct (Nat.ltb left right); [|reflexivity].
  destruct (nth_error arr (left + Nat.div2 (right - left))); [|reflexivity].
  rewrite cmp_front, Hp. simpl. now apply IH.
Qed.

Lemma find_slot_back fuel arr pivot : forall left right,
  front pivot = false ->
  left <= right -> right <= List.length arr -> right - left <= fuel ->
  Js.find_slot cmp fuel arr pivot left right = right.
Proof.
  induction fuel as [|f IH]; simpl; intros left right Hp Hle Hlen Hfuel.
  - lia.
  - destruct (Nat.ltb_spec left right) as [Hlt|Hge]; [|lia].
    assert (Hmid : left + Nat.div2 (right - left) < right).
    { rewrite Nat.div2_div.
      pose proof (Nat.Div0.div_lt_upper_bound (right - left) 2
                    (right - left)). lia. }
    generalize dependent (Nat.div2 (right - left)). intros half Hmid.
    destruct (nth_error arr (left + half)) eqn:En.
    + rewrite cmp_front, Hp. change (1 <? 0)%Z with false. cbv iota.
      apply IH; try assumption; lia.
    + apply nth_error_None in En. lia.
Qed.

Lemma skipn_past sorted (x : A) rest :
  skipn (S (List.length sorted)) (sorted ++ x :: rest) = rest.
Proof.
  induction sorted as [|y sorted IH]; [reflexivity|]. exact IH.
Qed.

Lemma insert_pivot_step sorted x rest :
  Js.insert_pivot cmp (sorted ++ x :: rest) (List.length sorted)
  = if front x then x :: sorted ++ rest else sorted ++ x :: rest.
Proof.
  unfold Js.insert_pivot.
  rewrite nth_error_app2 by lia. rewrite Nat.sub_diag.
  cbn [nth_error]. rewrite skipn_past.
  destruct (front x) eqn:Hx.
  - rewrite find_slot_front by assumption.
    rewrite List.firstn_O, List.skipn_O, Nat.sub_0_r.
    rewrite List.firstn_app, Nat.sub_diag, List.firstn_all, List.firstn_O.
    now rewrite List.app_nil_r.
  - rewrite find_slot_back; try assumption; try lia.
    2:{ rewrite List.length_app. simpl. lia. }
    rewrite Nat.sub_diag, List.firstn_O.
    rewrite List.firstn_app, Nat.sub_diag, List.firstn_all, List.firstn_O.
    now rewrite List.app_nil_r.
Qed.

Lemma binaryInsertionSort_shape rest : forall sorted,
  Js.binaryInsertionSort cmp (List.length rest) (sorted ++ rest)
                         (List.length sorted)
  = rev (List.filter front rest) ++ sorted
    ++ List.filter (fun a => negb (front a)) rest.
Proof.
  induction rest as [|x rest IH]; simpl; intros sorted.
  - reflexivity.
  - rewrite insert_pivot_step. destruct (front x) eqn:Hx; simpl.
    + change (x :: sorted ++ rest) with ((x :: sorted) ++ rest).
      change (S (List.length sorted)) with (List.length (x :: sorted)).
      rewrite IH. simpl. now rewrite <- List.app_assoc.
    + replace (sorted ++ x :: rest) with ((sorted ++ [x]) ++ rest)
        by now rewrite <- List.app_assoc.
      replace (S (List.length sorted)) with (List.length (sorted ++ [x]))
        by (rewrite List.length_app; simpl; lia).
      rewrite IH. now rewrite <- List.app_assoc.
Qed.

Lemma run_tail_split d prev tl :
  exists pre rest,
    tl = pre ++ rest
    /\ Js.run_tail cmp d prev tl = List.length pre
    /\ Forall (fun a => front a = d) pre.
Proof.
  revert prev. induction tl as [|cur tl IH]; intros prev.
  - exists [], []. repeat split. constructor.
  - simpl. rewrite cmp_front.
    destruct d, (front cur) eqn:Hc; simpl;
      try (exists [], (cur :: tl); repeat split; constructor).
    all: destruct (IH cur) as (pre & rest & -> & -> & Hall);
      exists (cur :: pre), rest; repeat split; now constructor.
Qed.

Lemma filter_all_front pre d :
  Forall (fun a => front a = d) pre ->
  List.filter front pre = (if d then pre else [])
  /\ List.filter (fun a => negb (front a)) pre = (if d then [] else pre).
Proof.
  induction 1 as [|a pre Ha _ [IH1 IH2]]; simpl.
  - now destruct d.
  - rewrite Ha, IH1, IH2. now destruct d.
Qed.

Lemma sort_front_first x tl :
  Js.sort cmp (x :: tl)
  = rev (List.filter front tl) ++ x
      :: List.filter (fun a => negb (front a)) tl.
Proof.
  unfold Js.sort. destruct tl as [|x1 tl]; [reflexivity|].
  change (Nat.ltb (List.length (x :: x1 :: tl)) 2) with false. cbv iota.
  unfold Js.countAndMakeRun. rewrite cmp_front.
  assert (Hd : ((if front x1 then (-1) else 1) <? 0)%Z = front x1)
    by (destruct (front x1); reflexivity).
  rewrite Hd. clear Hd.
  destruct (run_tail_split (front x1) x1 tl)
    as (pre & rest & -> & Hrun & Hall).
  cbv zeta. rewrite Hrun.
  destruct (filter_all_front pre _ Hall) as [Hf1 Hf2].
  change (2 + List.length pre) with (List.length (x :: x1 :: pre)).
  change (x :: x1 :: pre ++ rest) with ((x :: x1 :: pre) ++ rest).
  assert (Hlen : List.length ((x :: x1 :: pre) ++ rest)
                 - List.length (x :: x1 :: pre) = List.length rest)
    by (rewrite List.length_app; lia).
  destruct (front x1) eqn:H1; cbv iota beta; rewrite Hlen.
  - rewrite List.firstn_app, Nat.sub_diag, List.firstn_all, List.firstn_O.
    rewrite List.app_nil_r.
    rewrite List.skipn_app, Nat.sub_diag, List.skipn_all, List.skipn_O.
    rewrite List.app_nil_l.
    rewrite <- (List.length_rev (x :: x1 :: pre)).
    rewrite binaryInsertionSort_shape.
    cbn [app List.filter]. rewrite H1. cbn [negb].
    rewrite !List.filter_app, Hf1, Hf2.
    cbn [rev app]. rewrite List.rev_app_distr. cbn [rev app].
    repeat rewrite <- List.app_assoc. reflexivity.
  - rewrite binaryInsertionSort_shape.
    cbn [app List.filter]. rewrite H1. cbn [negb].
    rewrite !List.filter_app, Hf1, Hf2. reflexivity.
Qed.
End FrontFirst.

(** The sort of line 307, on a non-empty array (shorter than 64
    elements, see [Js.sort]): the required parameters after the first
    element come first, in the reverse of their order; then the first
    element; then the optional parameters after the first element, in
    their order.  Required parameters precede optional ones, the order
    of required ones is not kept. *)
Lemma sort_required_first_shape x tl :
  Js.sort required_first (x :: tl)
  = rev (List.filter p_required tl) ++ x
      :: List.filter (fun p => negb (p_required p)) tl.
Proof. now apply sort_front_first. Qed.

(* ================================================================== *)
(** ** Further properties of the generator and of the client *)
(* ================================================================== *)

(** *** Names *)

Lemma all_chars_append p s t :
  all_chars p (s +:+ t) = all_chars p s && all_chars p t.
Proof.
  induction s as [|c s IH]; simpl; [reflexivity|].
  rewrite IH. now rewrite andb_assoc.
Qed.

Lemma all_chars_map_chars p f s :
  (forall c, p (f c) = p c) ->
  all_chars p (map_chars f s) = all_chars p s.
Proof.
  intros Hf. induction s as [|c s IH]; simpl; [reflexivity|].
  now rewrite Hf, IH.
Qed.

Lemma all_chars_toNormalCase p s :
  (forall c, p (upper_char c) = p c) ->
  (forall c, p (lower_char c) = p c) ->
  all_chars p (toNormalCase s) = all_chars p s.
Proof.
  intros Hu Hl. destruct s as [|c s]; simpl; [reflexivity|].
  unfold toLowerCase. now rewrite Hu, all_chars_map_chars.
Qed.

Lemma all_chars_join_empty p l :
  Forall (fun s => all_chars p s = true) l ->
  all_chars p (join EmptyString l) = true.
Proof.
  unfold join. induction 1 as [|s l Hs Hl IH]; [reflexivity|].
  simpl. destruct l as [|s' l]; [assumption|].
  rewrite all_chars_append, Hs. simpl. exact IH.
Qed.

Lemma split_on_parts sep s :
  Forall (fun part => all_chars (fun c => negb (sep c)) part = true)
         (split_on sep s).
Proof.
  induction s as [|c s IH]; simpl.
  - repeat constructor.
  - destruct (sep c) eqn:Hc.
    + constructor; [reflexivity|assumption].
    + destruct (split_on sep s) as [|h t].
      * constructor; [simpl; now rewrite Hc|constructor].
      * inversion IH; subst. constructor; [|assumption].
        simpl. rewrite Hc. simpl. assumption.
Qed.

Lemma split_on_plain sep s :
  all_chars (fun c => negb (sep c)) s = true -> split_on sep s = [s].
Proof.
  induction s as [|c s IH]; simpl; [reflexivity|].
  intros H. apply andb_prop in H. destruct H as [Hc Hs].
  apply negb_true_iff in Hc. rewrite Hc, (IH Hs). reflexivity.
Qed.

Lemma upper_char_keeps c :
  is_letter (upper_char c) = is_letter c.
Proof.
  destruct c as [[] [] [] [] [] [] [] []]; reflexivity.
Qed.

Lemma lower_char_keeps c :
  is_letter (lower_char c) = is_letter c.
Proof.
  destruct c as [[] [] [] [] [] [] [] []]; reflexivity.
Qed.

Lemma all_chars_weaken (p q : ascii -> bool) s :
  (forall c, p c = true -> q c = true) ->
  all_chars p s = true -> all_chars q s = true.
Proof.
  intros Hpq. induction s as [|c s IH]; simpl; [reflexivity|].
  intros H. apply andb_prop in H. destruct H as [Hc Hs].
  now rewrite (Hpq c Hc), (IH Hs).
Qed.

(** X1: the name of a logical parameter never contains a hyphen or a
    dot, and a declared name that has none is kept as it is. *)
Theorem normalize_name_identifier nm :
  all_chars (fun c => negb (Ascii.eqb c "-" || Ascii.eqb c "."))
            (normalize_name nm) = true
  /\ (all_chars (fun c => negb (Ascii.eqb c "-" || Ascii.eqb c ".")) nm
      = true -> normalize_name nm = nm).
Proof.
  split.
  - unfold normalize_name.
    pose proof (split_on_parts
                  (fun c => Ascii.eqb c "-" || Ascii.eqb c ".") nm) as H.
    destruct (split_on _ nm) as [|first others]; [reflexivity|].
    apply all_chars_join_empty.
    inversion H as [|? ? Hf Ho]; subst. constructor; [assumption|].
    apply List.Forall_map. eapply List.Forall_impl; [|exact Ho].
    intros part Hp. cbv beta in Hp |- *.
    rewrite all_chars_toNormalCase; [assumption| |];
      intros c; destruct c as [[] [] [] [] [] [] [] []]; reflexivity.
  - intros H. unfold normalize_name.
    rewrite (split_on_plain _ nm H). reflexivity.
Qed.

Lemma normalize_name_identifier_witness :
  normalize_name "userId" = "userId".
Proof.
  apply (proj2 (normalize_name_identifier "userId")). reflexivity.
Defined.

(** X2: the name of a generated method never contains a slash or a
    hyphen, whatever the path and the class name. *)
Theorem buildMethodName_has_no_separator apiClassName path :
  all_chars (fun c => negb (Ascii.eqb c "-" || Ascii.eqb c "/"))
            (buildMethodName apiClassName path) = true.
Proof.
  unfold buildMethodName.
  assert (Hparts :
            Forall (fun part =>
                      all_chars (fun c => negb (Ascii.eqb c "-"
                                                || Ascii.eqb c "/")) part
                      = true) (name_parts path)).
  { unfold name_parts. apply List.Forall_forall. intros part Hin.
    apply filter_In in Hin. destruct Hin as [Hin _].
    apply filter_In in Hin. destruct Hin as [Hin _].
    pose proof (split_on_parts
                  (fun c => Ascii.eqb c "-" || Ascii.eqb c "/") path) as H.
    rewrite List.Forall_forall in H. now apply H. }
  generalize (List.length (name_parts path)). intros n.
  assert (Hacc : all_chars (fun c => negb (Ascii.eqb c "-"
                                           || Ascii.eqb c "/"))
                           EmptyString = true) by reflexivity.
  revert Hacc. generalize EmptyString as acc.
  induction Hparts as [|part parts Hp _ IH]; intros acc Hacc; simpl.
  - exact Hacc.
  - apply IH.
    destruct (negb (truthy acc) && Nat.ltb 1 n
              && mentions_class apiClassName part); [exact Hacc|].
    rewrite all_chars_append, Hacc. simpl.
    rewrite all_chars_toNormalCase; [assumption| |];
      intros c; destruct c as [[] [] [] [] [] [] [] []]; reflexivity.
Qed.

(** *** References to definitions *)

Lemma append_assoc_ (s t u : string) : (s +:+ t) +:+ u = s +:+ (t +:+ u).
Proof.
  induction s as [|c s IH]; [reflexivity|].
  change (String c ((s +:+ t) +:+ u) = String c (s +:+ (t +:+ u))).
  now f_equal.
Qed.

Lemma prefix_append (s t : string) : String.prefix s (s +:+ t) = true.
Proof.
  induction s as [|c s IH]; simpl.
  - now destruct t.
  - destruct (ascii_dec c c); [assumption|congruence].
Qed.

Lemma drop_append (s t : string) : Js.drop (String.length s) (s +:+ t) = t.
Proof. induction s as [|c s IH]; simpl; [now destruct t|assumption]. Qed.

Lemma take_while_all p s :
  all_chars p s = true -> take_while p s = s.
Proof.
  induction s as [|c s IH]; simpl; [reflexivity|].
  intros H. apply andb_prop in H. destruct H as [Hc Hs].
  now rewrite Hc, (IH Hs).
Qed.

Lemma match_definition_unfold s :
  match_definition s
  = match (if String.prefix "#/definitions/" s then
             match take_while (fun c => negb (is_line_terminator c))
                              (Js.drop 14 s) with
             | EmptyString => None
             | g => Some g
             end
           else None) with
    | Some g => Some g
    | None => match s with
              | EmptyString => None
              | String _ r => match_definition r
              end
    end.
Proof. destruct s; reflexivity. Qed.

Lemma match_definition_reference n :
  n <> EmptyString ->
  all_chars (fun c => negb (is_line_terminator c)) n = true ->
  match_definition ("#/definitions/" +:+ n) = Some n.
Proof.
  intros Hne Hn. rewrite match_definition_unfold.
  rewrite prefix_append.
  change 14 with (String.length "#/definitions/").
  rewrite drop_append, (take_while_all _ n Hn).
  destruct n; [congruence|reflexivity].
Qed.

(** X3: a node without [$ref] resolves to itself whatever the
    definitions are; a node that refers to [#/definitions/N] resolves to
    what reading N in the definitions gives: the definition named N as
    it stands (a reference inside it is not followed) when there is one;
    otherwise, for one of the names every object inherits
    ([constructor], [toString], ...), the inherited value, on which
    [type], [items] and [properties] read [undefined]; and [undefined]
    for any other name. *)
Theorem extractSchemaNode_resolves nd defs :
  (n_ref nd = None -> extractSchemaNode (Some nd) defs = Ok (Some nd))
  /\ (forall n,
         n <> EmptyString ->
         all_chars (fun c => negb (is_line_terminator c)) n = true ->
         n_ref nd = Some ("#/definitions/" +:+ n) ->
         (forall d, defs !! n = Some d ->
                    extractSchemaNode (Some nd) defs = Ok (Some d))
         /\ (defs !! n = None -> is_inherited n = true ->
             extractSchemaNode (Some nd) defs = Ok (Some inherited_value))
         /\ (defs !! n = None -> is_inherited n = false ->
             extractSchemaNode (Some nd) defs = Ok None)).
Proof.
  split.
  - intros H. unfold extractSchemaNode. now rewrite H.
  - intros n Hne Hn H.
    assert (Hres : extractSchemaNode (Some nd) defs
                   = Ok (definition_of defs n)).
    { unfold extractSchemaNode. rewrite H.
      change (truthy ("#/definitions/" +:+ n)) with true. cbv iota.
      now rewrite match_definition_reference. }
    rewrite Hres. unfold definition_of, Js.lookup.
    repeat split.
    + intros d ->. reflexivity.
    + intros -> ->. reflexivity.
    + intros -> ->. reflexivity.
Qed.

Lemma extractSchemaNode_resolves_witness :
  extractSchemaNode (Some (reference "#/definitions/BatchRequest"))
                    batch_definitions
  = Ok (Some (object_of [("userIds", array_of (typed "integer"))]))
  /\ extractSchemaNode (Some (reference "#/definitions/constructor"))
                       batch_definitions
     = Ok (Some inherited_value)
  /\ extractSchemaNode (Some (reference "#/definitions/Missing"))
                       batch_definitions
     = Ok None
  /\ extractSchemaNode (Some (typed "integer")) batch_definitions
     = Ok (Some (typed "integer")).
Proof.
  split; [|split; [|split]].
  - apply (proj2 (extractSchemaNode_resolves
                    (reference "#/definitions/BatchRequest")
                    batch_definitions) "BatchRequest");
      [discriminate|reflexivity|reflexivity|].
    vm_compute. reflexivity.
  - apply (proj2 (extractSchemaNode_resolves
                    (reference "#/definitions/constructor")
                    batch_definitions) "constructor");
      [discriminate|reflexivity|reflexivity| |reflexivity].
    vm_compute. reflexivity.
  - apply (proj2 (extractSchemaNode_resolves
                    (reference "#/definitions/Missing")
                    batch_definitions) "Missing");
      [discriminate|reflexivity|reflexivity| |reflexivity].
    vm_compute. reflexivity.
  - apply (proj1 (extractSchemaNode_resolves (typed "integer")
                    batch_definitions)).
    reflexivity.
Defined.

(** *** Path placeholders *)

Lemma match_placeholder_other c r :
  Ascii.eqb c "{" = false -> match_placeholder (String c r) = None.
Proof. intros H. simpl. now rewrite H. Qed.

Lemma placeholders_from_plain pre rest :
  all_chars (fun c => negb (Ascii.eqb c "{")) pre = true ->
  placeholders_from 0 (pre +:+ rest) = placeholders_from 0 rest.
Proof.
  induction pre as [|c pre IH]; [reflexivity|].
  intros H. simpl in H. apply andb_prop in H. destruct H as [Hc Hpre].
  apply negb_true_iff in Hc.
  change (String c pre +:+ rest) with (String c (pre +:+ rest)).
  cbn [placeholders_from]. rewrite (match_placeholder_other _ _ Hc).
  now apply IH.
Qed.

Lemma placeholders_from_none s :
  all_chars (fun c => negb (Ascii.eqb c "{")) s = true ->
  placeholders_from 0 s = [].
Proof.
  induction s as [|c s IH]; [reflexivity|].
  intros H. simpl in H. apply andb_prop in H. destruct H as [Hc Hs].
  apply negb_true_iff in Hc.
  cbn [placeholders_from]. rewrite (match_placeholder_other _ _ Hc).
  now apply IH.
Qed.

Lemma placeholders_from_skip a b :
  placeholders_from (String.length a) (a +:+ b) = placeholders_from 0 b.
Proof.
  induction a as [|c a IH]; [reflexivity|].
  change (String c a +:+ b) with (String c (a +:+ b)).
  simpl String.length. cbn [placeholders_from]. exact IH.
Qed.

Lemma take_while_stops p n c rest :
  all_chars p n = true -> p c = false ->
  take_while p (n +:+ String c rest) = n.
Proof.
  intros Hn Hc. induction n as [|x n IH]; simpl.
  - now rewrite Hc.
  - simpl in Hn. apply andb_prop in Hn. destruct Hn as [Hx Hn].
    now rewrite Hx, (IH Hn).
Qed.

Lemma match_placeholder_simple n rest :
  n <> EmptyString ->
  all_chars is_name_char n = true ->
  match_placeholder ("{" +:+ n +:+ "}" +:+ rest)
  = Some (n, "{" +:+ n +:+ "}").
Proof.
  intros Hne Hn.
  change ("{" +:+ n +:+ "}" +:+ rest)
    with (String "{" (n +:+ String "}" rest)).
  cbn [match_placeholder]. change (Ascii.eqb "{" "{") with true. cbv iota.
  rewrite (take_while_stops is_name_char n "}" rest Hn eq_refl).
  destruct n as [|x n']; [congruence|]. cbv iota.
  rewrite drop_append. cbn [until_close].
  change (Ascii.eqb "}" "}") with true. cbv iota.
  reflexivity.
Qed.

Lemma collect_single_placeholder pre n post :
  all_chars (fun c => negb (Ascii.eqb c "{")) pre = true ->
  all_chars (fun c => negb (Ascii.eqb c "{")) post = true ->
  n <> EmptyString ->
  all_chars is_name_char n = true ->
  collect_pathParams (pre +:+ "{" +:+ n +:+ "}" +:+ post)
  = {[ n := "{" +:+ n +:+ "}" ]}.
Proof.
  intros Hpre Hpost Hne Hn.
  unfold collect_pathParams, matchAll_placeholders.
  rewrite placeholders_from_plain by assumption.
  assert (Hstep : placeholders_from 0 ("{" +:+ n +:+ "}" +:+ post)
                  = [(n, "{" +:+ n +:+ "}")]).
  { pose proof (match_placeholder_simple n post Hne Hn) as Hm.
    change ("{" +:+ n +:+ "}" +:+ post)
      with (String "{" (n +:+ "}" +:+ post)) in *.
    cbn [placeholders_from]. rewrite Hm. f_equal.
    replace (String.length ("{" +:+ n +:+ "}") - 1)
      with (String.length (n +:+ "}"))
      by (change ("{" +:+ n +:+ "}") with (String "{" (n +:+ "}"));
          cbn [String.length]; lia).
    rewrite <- append_assoc_, placeholders_from_skip.
    now apply placeholders_from_none. }
  rewrite Hstep. simpl. apply insert_empty.
Qed.

Lemma prefix_other c pat x s :
  Ascii.eqb x c = false ->
  String.prefix (String c pat) (String x s) = false.
Proof.
  intros H. simpl. destruct (ascii_dec c x) as [->|]; [|reflexivity].
  now rewrite Ascii.eqb_refl in H.
Qed.

Lemma split_at_first_fresh c pat a b :
  all_chars (fun x => negb (Ascii.eqb x c)) a = true ->
  split_at_first (String c pat) (a +:+ String c pat +:+ b) = Some (a, b).
Proof.
  intros Ha. induction a as [|x a IH].
  - change (EmptyString +:+ String c pat +:+ b)
      with (String c pat +:+ b).
    destruct (String c pat +:+ b) eqn:E; [discriminate|].
    cbn [split_at_first]. rewrite <- E, prefix_append, drop_append.
    reflexivity.
  - simpl in Ha. apply andb_prop in Ha. destruct Ha as [Hx Ha].
    apply negb_true_iff in Hx.
    change (String x a +:+ String c pat +:+ b)
      with (String x (a +:+ String c pat +:+ b)).
    cbn [split_at_first]. rewrite (prefix_other c pat x _ Hx).
    now rewrite (IH Ha).
Qed.

Lemma expand_replacement_plain before matched after r :
  all_chars (fun x => negb (Ascii.eqb x "$")) r = true ->
  expand_replacement before matched after r = r.
Proof.
  induction r as [|c r IH]; [reflexivity|].
  intros H. simpl in H. apply andb_prop in H. destruct H as [Hc Hr].
  apply negb_true_iff in Hc. cbn [expand_replacement]. rewrite Hc.
  now rewrite (IH Hr).
Qed.

(** X4: for a path with one placeholder [{n}] and an address without
    braces before it, a parameter named [n] is resolved to the location
    [path] whatever it declares, and routing it rewrites the address at
    the placeholder into the interpolation of the argument, leaving the
    body, the query entries and the header entries untouched. *)
Theorem path_parameter_is_interpolated u pre n post declared p rq :
  all_chars (fun c => negb (Ascii.eqb c "{")) u = true ->
  all_chars (fun c => negb (Ascii.eqb c "{")) pre = true ->
  all_chars (fun c => negb (Ascii.eqb c "{")) post = true ->
  n <> EmptyString ->
  all_chars is_name_char n = true ->
  out_ p = {| param := n;
              location := resolve_location
                            (collect_pathParams
                               (pre +:+ "{" +:+ n +:+ "}" +:+ post))
                            n declared |} ->
  all_chars (fun x => negb (Ascii.eqb x "$")) (name p) = true ->
  fullURL rq = u +:+ pre +:+ "{" +:+ n +:+ "}" +:+ post ->
  location (out_ p) = Some "path"
  /\ route_param (collect_pathParams (pre +:+ "{" +:+ n +:+ "}" +:+ post))
                 rq p
     = Ok {| fullURL := u +:+ pre +:+ "${" +:+ name p +:+ "}" +:+ post;
             reqBody := reqBody rq;
             reqParams := reqParams rq;
             reqHeaders := reqHeaders rq |}.
Proof.
  intros Hu Hpre Hpost Hne Hn Hout Hname Hurl.
  rewrite (collect_single_placeholder pre n post Hpre Hpost Hne Hn) in *.
  assert (Hloc : location (out_ p) = Some "path").
  { rewrite Hout. simpl. unfold resolve_location, Js.lookup.
    rewrite lookup_singleton_eq. reflexivity. }
  split; [exact Hloc|].
  unfold route_param. rewrite Hloc. simpl is_type. cbv iota.
  rewrite Hout. simpl param. unfold pattern_of, Js.lookup.
  rewrite lookup_singleton_eq. rewrite Hurl. unfold replace. simpl show.
  replace (u +:+ pre +:+ "{" +:+ n +:+ "}" +:+ post)
    with ((u +:+ pre) +:+ String "{" (n +:+ "}") +:+ post).
  2:{ rewrite ?append_assoc_. do 2 f_equal.
      change (String "{" ((n +:+ "}") +:+ post)
              = String "{" (n +:+ "}" +:+ post)).
      now rewrite append_assoc_. }
  change ("{" +:+ n +:+ "}") with (String "{" (n +:+ "}")).
  rewrite split_at_first_fresh.
  2:{ rewrite all_chars_append, Hu, Hpre. reflexivity. }
  f_equal. f_equal.
  change ("${" +:+ name p +:+ "}")
    with (String "$" (String "{" (name p +:+ "}"))).
  cbn [expand_replacement].
  change (Ascii.eqb "$" "$") with true. cbv iota.
  change (Ascii.eqb "{" "$") with false.
  change (Ascii.eqb "{" "&") with false.
  change (Ascii.eqb "{" "`") with false.
  change (Ascii.eqb "{" "'") with false. cbv iota.
  cbn [expand_replacement].
  change (Ascii.eqb "{" "$") with false. cbv iota.
  rewrite expand_replacement_plain.
  2:{ rewrite all_chars_append, Hname. reflexivity. }
  rewrite ?append_assoc_. do 2 f_equal.
  change (String "$" (String "{" ((name p +:+ "}") +:+ post))
          = String "$" (String "{" (name p +:+ "}" +:+ post))).
  now rewrite append_assoc_.
Qed.

Lemma path_parameter_is_interpolated_witness :
  route_param (collect_pathParams friends_path)
    {| fullURL := "https://users.roblox.com" +:+ friends_path;
       reqBody := None; reqParams := []; reqHeaders := [] |}
    userId_param
  = Ok {| fullURL := "https://users.roblox.com/v1/users/${userId}/friends";
          reqBody := None; reqParams := []; reqHeaders := [] |}.
Proof.
  apply (proj2 (path_parameter_is_interpolated
                  "https://users.roblox.com" "/v1/users/" "userId"
                  "/friends" (Some "query") userId_param
                  {| fullURL := "https://users.roblox.com" +:+ friends_path;
                     reqBody := None; reqParams := []; reqHeaders := [] |}
                  eq_refl eq_refl eq_refl
                  ltac:(discriminate) eq_refl
                  ltac:(vm_compute; reflexivity) eq_refl eq_refl)).
Defined.

(** *** The reordering of the declared parameters *)

Lemma filter_split_permutation {A} (f : A -> bool) l :
  Permutation (List.filter f l ++ List.filter (fun a => negb (f a)) l) l.
Proof.
  induction l as [|x l IH]; simpl; [constructor|].
  destruct (f x); simpl.
  - now constructor.
  - rewrite <- Permutation_middle. now constructor.
Qed.

Lemma sort_required_first_permutation l :
  Permutation (Js.sort required_first l) l.
Proof.
  destruct l as [|x tl]; [constructor|].
  rewrite sort_required_first_shape.
  rewrite <- Permutation_middle. constructor.
  rewrite <- (filter_split_permutation p_required tl) at 3.
  apply Permutation_app_tail. symmetry. apply Permutation_rev.
Qed.

(** X5: the sort of line 307, on an array shorter than 64 elements,
    returns the required parameters (in some order) followed by the
    optional parameters in their declared order. *)
Theorem sort_required_first_partition l :
  List.length l < 64 ->
  exists front,
    Js.sort required_first l
    = front ++ List.filter (fun p => negb (p_required p)) l
    /\ Forall (fun p => p_required p = true) front
    /\ Permutation front (List.filter p_required l).
Proof.
  intros _. destruct l as [|x tl].
  - exists []. repeat split; constructor.
  - rewrite sort_required_first_shape. simpl.
    assert (Hrev : Forall (fun p => p_required p = true)
                          (rev (List.filter p_required tl))).
    { apply List.Forall_rev. apply List.Forall_forall.
      intros p Hp. apply filter_In in Hp. tauto. }
    destruct (p_required x) eqn:Hx; simpl.
    + exists (rev (List.filter p_required tl) ++ [x]).
      split; [now rewrite <- List.app_assoc|]. split.
      * apply List.Forall_app. split; [assumption|]. now constructor.
      * rewrite <- Permutation_cons_append. constructor.
        symmetry. apply Permutation_rev.
    + exists (rev (List.filter p_required tl)).
      split; [reflexivity|]. split; [assumption|].
      symmetry. apply Permutation_rev.
Qed.

Lemma sort_required_first_partition_witness :
  exists front,
    Js.sort required_first
      [plain "a" "query" false; plain "b" "query" true;
       plain "c" "query" false; plain "d" "query" true]
    = front ++ [plain "a" "query" false; plain "c" "query" false]
    /\ Forall (fun p => p_required p = true) front
    /\ Permutation front [plain "b" "query" true; plain "d" "query" true].
Proof.
  apply (sort_required_first_partition
           [plain "a" "query" false; plain "b" "query" true;
            plain "c" "query" false; plain "d" "query" true]).
  simpl. lia.
Defined.

Lemma buildParamsInfo_operation path mi defs mi' info :
  buildParamsInfo path mi defs = Ok (mi', info) ->
  mi' = match parameters mi with
        | None => mi
        | Some declared =>
            {| summary := summary mi;
               deprecated := deprecated mi;
               parameters := Some (Js.sort required_first declared) |}
        end.
Proof.
  unfold buildParamsInfo. intros H.
  destruct (parameters mi) as [declared|]; [|now inversion H].
  cbv zeta in H.
  destruct (match Js.sort required_first declared with
            | [p] => match p_schema p with Some _ => Some p | None => None end
            | _ => None
            end) as [p|].
  - destruct (extractSchemaNode (p_schema p) defs) as [schema|e];
      simpl in H; [|discriminate].
    destruct schema as [nd|]; [|discriminate].
    destruct (is_type (n_type nd) "object").
    + destruct (n_properties nd) as [props|]; [|discriminate].
      destruct (promote_properties props _ defs) as [ps|e];
        simpl in H; [|discriminate].
      now inversion H.
    + now inversion H.
  - destruct (independent_params _ defs _) as [ps|e];
      simpl in H; [|discriminate].
    now inversion H.
Qed.

(** X6: the only effect of buildParamsInfo on the operation it is given
    is a reordering of its parameter list: the summary and the
    deprecation flag are untouched, no parameter is added, lost or
    changed. *)
Theorem buildParamsInfo_only_reorders path mi defs mi' info :
  buildParamsInfo path mi defs = Ok (mi', info) ->
  summary mi' = summary mi
  /\ deprecated mi' = deprecated mi
  /\ match parameters mi, parameters mi' with
     | None, None => True
     | Some declared, Some after => Permutation declared after
     | _, _ => False
     end.
Proof.
  intros H. rewrite (buildParamsInfo_operation _ _ _ _ _ H).
  destruct (parameters mi) as [declared|] eqn:E; simpl.
  - repeat split. symmetry. apply sort_required_first_permutation.
  - rewrite E. repeat split.
Qed.

Lemma buildParamsInfo_only_reorders_witness :
  exists mi' info,
    buildParamsInfo "/v1/search" search_op ∅ = Ok (mi', info)
    /\ summary mi' = summary search_op
    /\ match parameters search_op, parameters mi' with
       | Some declared, Some after => Permutation declared after
       | _, _ => False
       end.
Proof.
  destruct (buildParamsInfo "/v1/search" search_op ∅)
    as [[mi' info]|e] eqn:H; [|vm_compute in H; discriminate].
  exists mi', info. split; [reflexivity|].
  destruct (buildParamsInfo_only_reorders _ _ _ _ _ H) as (Hs & _ & Hp).
  split; [exact Hs|]. simpl in *.
  destruct (parameters mi'); [exact Hp|contradiction].
Defined.

(** *** Independent parameters *)

Lemma independent_param_fields pp defs p i :
  independent_param pp defs p = Ok i ->
  out_ i = {| param := p_name p;
              location := resolve_location pp (p_name p) (p_in p) |}
  /\ required i = p_required p
  /\ name i = normalize_name (p_name p).
Proof.
  unfold independent_param. intros H.
  destruct (match p_schema p with
            | Some _ =>
                let* schema := extractSchemaNode (p_schema p) defs in
                match schema with
                | Some nd =>
                    if is_type (n_type nd) "array"
                    then let* a := array_type nd defs in Ok (Some a)
                    else Ok (n_type nd)
                | None => Throw (TypeError "type of undefined")
                end
            | None => Ok (p_type p)
            end) as [t|e]; simpl in H; [|discriminate].
  inversion H; subst. simpl. auto.
Qed.

Lemma independent_params_shape pp defs ps : forall infos,
  independent_params pp defs ps = Ok infos ->
  map out_ infos
  = map (fun p => {| param := p_name p;
                     location := resolve_location pp (p_name p) (p_in p) |})
        ps
  /\ map required infos = map p_required ps
  /\ map name infos = map (fun p => normalize_name (p_name p)) ps.
Proof.
  induction ps as [|p ps IH]; simpl; intros infos H.
  - inversion H. auto.
  - destruct (independent_param pp defs p) as [i|e] eqn:Hi;
      simpl in H; [|discriminate].
    destruct (independent_params pp defs ps) as [more|e];
      simpl in H; [|discriminate].
    inversion H; subst. simpl.
    destruct (independent_param_fields _ _ _ _ Hi) as (-> & -> & ->).
    destruct (IH more eq_refl) as (-> & -> & ->). auto.
Qed.

Lemma independent_case_shape path mi defs mi' info declared :
  buildParamsInfo path mi defs = Ok (mi', info) ->
  parameters mi = Some declared ->
  List.length declared <> 1
  \/ (forall p, In p declared -> p_schema p = None) ->
  isMapped info = false
  /\ pathParams info = collect_pathParams path
  /\ map out_ (params info)
     = map (fun p => {| param := p_name p;
                        location := resolve_location
                                      (collect_pathParams path)
                                      (p_name p) (p_in p) |})
           (Js.sort required_first declared)
  /\ map required (params info)
     = map p_required (Js.sort required_first declared)
  /\ map name (params info)
     = map (fun p => normalize_name (p_name p))
           (Js.sort required_first declared).
Proof.
  unfold buildParamsInfo. intros H Hdecl Hcase. rewrite Hdecl in H.
  cbv zeta in H.
  pose proof (sort_required_first_permutation declared) as Hperm.
  assert (Hsingle :
            match Js.sort required_first declared with
            | [p] => match p_schema p with Some _ => Some p | None => None end
            | _ => None
            end = None).
  { destruct (Js.sort required_first declared) as [|p [|q rest]] eqn:E;
      try reflexivity.
    destruct Hcase as [Hlen|Hnone].
    - apply Permutation_length in Hperm. simpl in Hperm. congruence.
    - rewrite (Hnone p); [reflexivity|].
      eapply Permutation_in; [exact Hperm|]. now left. }
  rewrite Hsingle in H.
  destruct (independent_params (collect_pathParams path) defs
              (Js.sort required_first declared)) as [ps|e] eqn:Hps;
    simpl in H; [|discriminate].
  inversion H; subst. simpl.
  destruct (independent_params_shape _ _ _ _ Hps) as (Ho & Hr & Hn).
  auto.
Qed.

(** X7: when an operation declares no parameter, several parameters, or
    parameters none of which carries a schema, every declared parameter
    gives exactly one logical parameter, in the order the sort left:
    same target name, same required flag, normalized name, and the
    location [path] when reading the name in [pathParams] gives
    something (a placeholder of the path, or one of the names every
    object inherits, such as [constructor]), the declared [in]
    otherwise; the parameters are not grouped. *)
Theorem independent_parameters_one_each path mi defs mi' info declared :
  buildParamsInfo path mi defs = Ok (mi', info) ->
  parameters mi = Some declared ->
  List.length declared <> 1
  \/ (forall p, In p declared -> p_schema p = None) ->
  isMapped info = false
  /\ pathParams info = collect_pathParams path
  /\ map out_ (params info)
     = map (fun p => {| param := p_name p;
                        location := resolve_location
                                      (collect_pathParams path)
                                      (p_name p) (p_in p) |})
           (Js.sort required_first declared)
  /\ map required (params info)
     = map p_required (Js.sort required_first declared)
  /\ map name (params info)
     = map (fun p => normalize_name (p_name p))
           (Js.sort required_first declared).
Proof. apply independent_case_shape. Qed.

Lemma independent_parameters_one_each_witness :
  exists mi' info,
    buildParamsInfo friends_path friends_op ∅ = Ok (mi', info)
    /\ isMapped info = false
    /\ map out_ (params info)
       = [{| param := "userId"; location := Some "path" |};
          {| param := "limit"; location := Some "query" |}].
Proof.
  destruct (buildParamsInfo friends_path friends_op ∅)
    as [[mi' info]|e] eqn:H; [|vm_compute in H; discriminate].
  exists mi', info. split; [reflexivity|].
  destruct (independent_parameters_one_each _ _ _ _ _
              [plain "userId" "path" true; plain "limit" "query" false]
              H eq_refl) as (Hm & _ & Ho & _).
  - left. simpl. lia.
  - split; [exact Hm|]. rewrite Ho. vm_compute. reflexivity.
Defined.

(** A parameter named [constructor] is read in [pathParams] as the
    inherited function: it is located in the path although the path has
    no placeholder and the parameter declares a cookie, and the body of
    the method is generated. *)
Lemma inherited_name_is_located_in_path :
  resolve_location (collect_pathParams "/v1/session") "constructor"
                   (Some "cookie") = Some "path"
  /\ exists mi' info text,
      buildParamsInfo "/v1/session" constructor_op ∅ = Ok (mi', info)
      /\ map (fun i => location (out_ i)) (params info)
         = [Some "path"; Some "query"]
      /\ buildMethodBody "https://auth.roblox.com/v1/session" "get"
           (params info) (pathParams info) (isMapped info) = Ok text.
Proof.
  split; [vm_compute; reflexivity|].
  eexists _, _, _. split; [vm_compute; reflexivity|].
  split; vm_compute; reflexivity.
Qed.

(** *** One body per request *)

Lemma route_params_app pp l1 l2 : forall rq,
  route_params pp rq (l1 ++ l2)
  = let* rq' := route_params pp rq l1 in route_params pp rq' l2.
Proof.
  induction l1 as [|p l1 IH]; intros rq; simpl; [reflexivity|].
  destruct (route_param pp rq p) as [rq'|e]; simpl; [apply IH|reflexivity].
Qed.

Lemma is_type_exclusive loc a b :
  a <> b -> is_type loc a = true -> is_type loc b = false.
Proof.
  destruct loc as [x|]; simpl; [|discriminate].
  intros Hab Ha. apply String.eqb_eq in Ha. subst.
  now apply String.eqb_neq.
Qed.

Lemma route_param_sets_body pp rq p rq' :
  route_param pp rq p = Ok rq' ->
  truthy (name p) = true ->
  is_type (location (out_ p)) "body"
  || is_type (location (out_ p)) "formData" = true ->
  body_set rq' = true.
Proof.
  unfold route_param. intros H Hname Hloc.
  destruct (is_type (location (out_ p)) "path") eqn:E1.
  { rewrite (is_type_exclusive _ "path" "body"),
            (is_type_exclusive _ "path" "formData") in Hloc;
      try assumption; discriminate. }
  destruct (is_type (location (out_ p)) "query") eqn:E2.
  { rewrite (is_type_exclusive _ "query" "body"),
            (is_type_exclusive _ "query" "formData") in Hloc;
      try assumption; discriminate. }
  destruct (is_type (location (out_ p)) "header") eqn:E3.
  { rewrite (is_type_exclusive _ "header" "body"),
            (is_type_exclusive _ "header" "formData") in Hloc;
      try assumption; discriminate. }
  destruct (is_type (location (out_ p)) "body").
  - destruct (reqBody rq) as [b|].
    + destruct (truthy b); [discriminate|].
      inversion H; subst. exact Hname.
    + inversion H; subst. exact Hname.
  - simpl in Hloc. rewrite Hloc in H. inversion H; subst. exact Hname.
Qed.

Lemma route_param_keeps_body pp rq p rq' :
  route_param pp rq p = Ok rq' ->
  truthy (name p) = true ->
  body_set rq = true ->
  body_set rq' = true
  /\ is_type (location (out_ p)) "body" = false.
Proof.
  unfold route_param, body_set. intros H Hname Hset.
  destruct (is_type (location (out_ p)) "path") eqn:E1.
  { inversion H; subst. simpl. split; [assumption|].
    now apply (is_type_exclusive _ "path" "body"). }
  destruct (is_type (location (out_ p)) "query") eqn:E2.
  { inversion H; subst. simpl. split; [assumption|].
    now apply (is_type_exclusive _ "query" "body"). }
  destruct (is_type (location (out_ p)) "header") eqn:E3.
  { inversion H; subst. simpl. split; [assumption|].
    now apply (is_type_exclusive _ "header" "body"). }
  destruct (is_type (location (out_ p)) "body").
  - destruct (reqBody rq) as [b|]; [|discriminate].
    rewrite Hset in H. discriminate.
  - destruct (is_type (location (out_ p)) "formData"); [|discriminate].
    inversion H; subst. simpl. auto.
Qed.

Lemma route_params_keep_body pp ps : forall rq rq',
  route_params pp rq ps = Ok rq' ->
  Forall (fun p => truthy (name p) = true) ps ->
  body_set rq = true ->
  body_set rq' = true
  /\ Forall (fun p => is_type (location (out_ p)) "body" = false) ps.
Proof.
  induction ps as [|p ps IH]; simpl; intros rq rq' H Hn Hset.
  - inversion H; subst. auto.
  - inversion Hn as [|? ? Hp Hps]; subst.
    destruct (route_param pp rq p) as [rq1|e] eqn:E; simpl in H;
      [|discriminate].
    destruct (route_param_keeps_body _ _ _ _ E Hp Hset) as [Hset1 Hb].
    destruct (IH _ _ H Hps Hset1) as [Hset' Hall]. auto.
Qed.

(** X8: when the body of a method with independent parameters is
    generated, no body parameter comes after another body parameter or
    after a form-data parameter: a request never gets its payload from
    two parameters one of which is declared in the body after the other
    (parameter names taken non-empty). *)
Theorem body_parameter_is_last_payload u methodType pp ps text :
  buildMethodBody u methodType ps pp false = Ok text ->
  Forall (fun p => truthy (name p) = true) ps ->
  forall before p between q after,
    ps = before ++ p :: between ++ q :: after ->
    is_type (location (out_ p)) "body"
    || is_type (location (out_ p)) "formData" = true ->
    is_type (location (out_ q)) "body" = false.
Proof.
  unfold buildMethodBody. intros H Hn before p between q after -> Hp.
  destruct (route_params pp {| fullURL := u; reqBody := None;
                               reqParams := []; reqHeaders := [] |}
              (before ++ p :: between ++ q :: after)) as [rq|e] eqn:E;
    simpl in H; [|discriminate].
  rewrite route_params_app in E.
  destruct (route_params pp _ before) as [rq0|e0]; simpl in E;
    [|discriminate].
  destruct (route_param pp rq0 p) as [rq1|e1] eqn:E1; simpl in E;
    [|discriminate].
  apply List.Forall_app in Hn. destruct Hn as [_ Hn].
  inversion Hn as [|? ? Hnp Hrest]; subst.
  pose proof (route_param_sets_body _ _ _ _ E1 Hnp Hp) as Hset.
  destruct (route_params_keep_body _ _ _ _ E Hrest Hset) as [_ Hall].
  apply List.Forall_app in Hall. destruct Hall as [_ Hall].
  now inversion Hall.
Qed.

Lemma body_parameter_is_last_payload_witness :
  is_type (location (out_ limit_param)) "body" = false.
Proof.
  destruct (buildMethodBody "https://users.roblox.com/v1/users" "post"
              [payload_param; limit_param] ∅ false) as [text|e] eqn:H;
    [|vm_compute in H; discriminate].
  apply (body_parameter_is_last_payload _ _ _ _ text H
           ltac:(repeat constructor) [] payload_param [] limit_param []
           eq_refl eq_refl).
Defined.

(** *** What a generated method receives *)




(** *** The tree of a run in which every request succeeds *)

Lemma requests_iff apis a d v :
  In (a, d, v) (requests apis) <-> In (a, d) apis /\ In v (versions d).
Proof.
  unfold requests. rewrite in_flat_map. split.
  - intros ([a' d'] & Hin & Hv). apply in_map_iff in Hv.
    destruct Hv as (v' & Heq & Hv). inversion Heq; subst. auto.
  - intros [Ha Hv]. exists (a, d). split; [assumption|].
    apply in_map_iff. eauto.
Qed.

Lemma combine_fulfilled {X Y} (f : X -> result Y) l : forall vs,
  map f l = map Ok vs ->
  (forall x y, In (x, y) (combine l vs) -> f x = Ok y)
  /\ (forall x, In x l -> exists y, In (x, y) (combine l vs)).
Proof.
  induction l as [|x l IH]; intros [|y vs] H; simpl in *;
    try discriminate.
  - split; [tauto|]. tauto.
  - inversion H as [[Hx Hrest]]. destruct (IH vs Hrest) as [H1 H2].
    split.
    + intros x' y' [Heq|Hin]; [inversion Heq; subst; assumption|auto].
    + intros x' [->|Hin]; [eauto|].
      destruct (H2 x' Hin) as [y' Hy']. eauto.
Qed.

Lemma initial_tree_absent (apis : list (string * meta)) a :
  ~ In a (map fst apis) ->
  forall t : apiTree,
    fold_left (fun t '(apiName, data) => <[apiName := (data, ∅)]> t) apis t
      !! a = t !! a.
Proof.
  induction apis as [|[b e] l IHl]; simpl; intros Hn t; [reflexivity|].
  rewrite IHl by tauto. apply lookup_insert_ne. tauto.
Qed.

Lemma initial_tree_lookup (apis : list (string * meta)) a d :
  List.NoDup (map fst apis) -> In (a, d) apis ->
  forall t : apiTree,
    fold_left (fun t '(apiName, data) => <[apiName := (data, ∅)]> t) apis t
      !! a = Some (d, ∅).
Proof.
  induction apis as [|[a' d'] apis IH]; simpl; intros Hnd Hin t; [tauto|].
  inversion Hnd as [|? ? Hnotin Hnd']; subst.
  destruct Hin as [Heq|Hin].
  - inversion Heq; subst.
    rewrite initial_tree_absent by assumption. apply lookup_insert_eq.
  - now apply IH.
Qed.

Lemma written_tree_lookup writes : forall (t : apiTree) a,
  fold_left (fun t '((apiName, _, version), methods) =>
               record_version t apiName version methods) writes t !! a
  = (fun '(m, vs) => (m, versions_after writes a vs)) <$> (t !! a).
Proof.
  induction writes as [|[[[a' d'] v] ms] writes IH]; intros t a.
  - simpl. now destruct (t !! a) as [[m vs]|].
  - cbn [fold_left]. rewrite IH. unfold record_version.
    unfold versions_after. cbn [fold_left].
    destruct (String.eqb_spec a' a) as [->|Hne].
    + rewrite lookup_alter_eq. now destruct (t !! a) as [[m vs]|].
    + now rewrite lookup_alter_ne.
Qed.

Lemma versions_after_from writes a : forall vs v ms,
  versions_after writes a vs !! v = Some ms ->
  vs !! v = Some ms \/ exists d, In (a, d, v, ms) writes.
Proof.
  unfold versions_after.
  induction writes as [|[[[a' d'] v'] ms'] writes IH]; intros vs v ms H.
  - now left.
  - cbn [fold_left] in H. apply IH in H.
    destruct H as [H|[d H]]; [|right; exists d; now right].
    destruct (String.eqb_spec a' a) as [->|Hne]; [|now left].
    destruct (String.eqb_spec v' v) as [->|Hv].
    + rewrite lookup_insert_eq in H. inversion H; subst.
      right. exists d'. now left.
    + rewrite lookup_insert_ne in H by assumption. now left.
Qed.

Lemma versions_after_keeps writes a : forall vs v,
  is_Some (vs !! v) -> is_Some (versions_after writes a vs !! v).
Proof.
  unfold versions_after.
  induction writes as [|[[[a' d'] v'] ms'] writes IH]; intros vs v H.
  - exact H.
  - cbn [fold_left]. apply IH.
    destruct (String.eqb a' a); [|exact H].
    destruct (String.eqb_spec v' v) as [->|Hv].
    + rewrite lookup_insert_eq. eauto.
    + now rewrite lookup_insert_ne.
Qed.

Lemma versions_after_written writes a : forall vs d v ms,
  In (a, d, v, ms) writes ->
  is_Some (versions_after writes a vs !! v).
Proof.
  induction writes as [|[[[a' d'] v'] ms'] writes IH];
    intros vs d v ms Hin; [destruct Hin|].
  destruct Hin as [Heq|Hin].
  - inversion Heq; subst. unfold versions_after. cbn [fold_left].
    rewrite String.eqb_refl. apply versions_after_keeps.
    rewrite lookup_insert_eq. eauto.
  - unfold versions_after. cbn [fold_left].
    exact (IH _ d v ms Hin).
Qed.

Lemma unique_metadata (apis : list (string * meta)) a d d' :
  List.NoDup (map fst apis) -> In (a, d) apis -> In (a, d') apis -> d = d'.
Proof.
  induction apis as [|[b e] apis IH]; simpl; intros Hnd H1 H2; [tauto|].
  inversion Hnd as [|? ? Hnotin Hnd']; subst.
  destruct H1 as [H1|H1], H2 as [H2|H2].
  - congruence.
  - inversion H1; subst. destruct Hnotin.
    apply in_map_iff. exists (a, d'). auto.
  - inversion H2; subst. destruct Hnotin.
    apply in_map_iff. exists (a, d). auto.
  - now apply IH.
Qed.

Lemma returned_tree get settle apis tree :
  buildApiTree get settle apis = Ok tree ->
  List.NoDup (map fst apis) ->
  (forall a d,
      In (a, d) apis ->
      exists vs,
        tree !! a = Some (d, vs)
        /\ (forall v, In v (versions d) ->
              exists ms, vs !! v = Some ms
                         /\ document_request get a d v = Ok ms)
        /\ (forall v, ~ In v (versions d) -> vs !! v = None))
  /\ (forall a, ~ In a (map fst apis) -> tree !! a = None).
Proof.
  unfold buildApiTree. intros H Hnd.
  destruct (Promise_all settle
              (map (fun '(apiName, data, version) =>
                      document_request get apiName data version)
                   (requests apis))) as [generated|e] eqn:Hall;
    simpl in H; [|discriminate].
  inversion H as [Htree]. clear H.
  apply Promise_all_fulfils in Hall.
  destruct (combine_fulfilled _ _ _ Hall) as [Hok Hevery].
  split.
  - intros a d Hin. rewrite written_tree_lookup.
    rewrite (initial_tree_lookup apis a d Hnd Hin). simpl.
    eexists. split; [reflexivity|]. split.
    + intros v Hv.
      destruct (Hevery (a, d, v)) as [ms0 Hms0];
        [now apply requests_iff|].
      destruct (versions_after_written _ a ∅ d v ms0 Hms0) as [ms Hms].
      exists ms. split; [exact Hms|].
      apply versions_after_from in Hms.
      destruct Hms as [Hms|[d' Hw]]; [now rewrite lookup_empty in Hms|].
      pose proof (Hok _ _ Hw) as Hreq. simpl in Hreq.
      apply in_combine_l in Hw. apply requests_iff in Hw.
      destruct Hw as [Hin' _].
      now rewrite (unique_metadata apis a d d' Hnd Hin Hin').
    + intros v Hv.
      destruct (versions_after (combine (requests apis) generated) a ∅
                  !! v) as [ms|] eqn:E; [|reflexivity].
      apply versions_after_from in E.
      destruct E as [E|[d' Hw]]; [now rewrite lookup_empty in E|].
      apply in_combine_l in Hw. apply requests_iff in Hw.
      destruct Hw as [Hin' Hv'].
      rewrite <- (unique_metadata apis a d d' Hnd Hin Hin') in Hv'.
      contradiction.
  - intros a Ha. rewrite written_tree_lookup.
    rewrite (initial_tree_absent apis a Ha). now rewrite lookup_empty.
Qed.

(** X10: when buildApiTree returns a tree (the metadata being keyed by
    distinct API names, as the entries of an object are), the tree holds
    every API with its metadata, and under it exactly the versions the
    metadata declares, each with the methods compiled from its
    document; an API with no declared version is there with no version,
    and nothing else is in the tree. *)
Theorem buildApiTree_holds_every_version get settle apis tree :
  buildApiTree get settle apis = Ok tree ->
  List.NoDup (map fst apis) ->
  (forall a d,
      In (a, d) apis ->
      exists vs,
        tree !! a = Some (d, vs)
        /\ (forall v, In v (versions d) ->
              exists ms, vs !! v = Some ms
                         /\ document_request get a d v = Ok ms)
        /\ (forall v, ~ In v (versions d) -> vs !! v = None))
  /\ (forall a, ~ In a (map fst apis) -> tree !! a = None).
Proof. apply returned_tree. Qed.

Lemma buildApiTree_holds_every_version_witness :
  exists tree vs ms,
    buildApiTree (fun _ => Ok friends_doc) [0] [("Users", users_meta)]
    = Ok tree
    /\ tree !! "Users" = Some (users_meta, vs)
    /\ vs !! "v1" = Some ms
    /\ document_request (fun _ => Ok friends_doc) "Users" users_meta "v1"
       = Ok ms.
Proof.
  destruct (buildApiTree (fun _ => Ok friends_doc) [0]
              [("Users", users_meta)]) as [tree|e] eqn:H;
    [|vm_compute in H; discriminate].
  destruct (buildApiTree_holds_every_version _ _ _ _ H) as [Hin _].
  - repeat constructor. simpl. tauto.
  - destruct (Hin "Users" users_meta (or_introl eq_refl))
      as (vs & Ht & Hv & _).
    destruct (Hv "v1" (or_introl eq_refl)) as (ms & Hms & Hreq).
    exists tree, vs, ms. auto.
Defined.

(** *** The logical type of an independent parameter *)

(** X11: the type recorded for an independent parameter is the declared
    type when the parameter has no schema; with a schema it is the type
    of the resolved schema, except for an array schema, where it is
    [array<T>] with T the type of the resolved element schema. *)
Theorem independent_parameter_type pp defs p i :
  independent_param pp defs p = Ok i ->
  (p_schema p = None -> type i = p_type p)
  /\ (forall s nd,
         p_schema p = Some s ->
         extractSchemaNode (Some s) defs = Ok (Some nd) ->
         (is_type (n_type nd) "array" = false -> type i = n_type nd)
         /\ (is_type (n_type nd) "array" = true ->
             exists items,
               extractSchemaNode (n_items nd) defs = Ok (Some items)
               /\ type i
                  = Some ("array<" +:+ show (n_type items) +:+ ">"))).
Proof.
  unfold independent_param. intros H. split.
  - intros Hs. rewrite Hs in H. simpl in H. inversion H. reflexivity.
  - intros s nd Hs Hnd. rewrite Hs in H. rewrite Hnd in H. simpl in H.
    split; intros Ha; rewrite Ha in H.
    + simpl in H. inversion H. reflexivity.
    + unfold array_type in H.
      destruct (extractSchemaNode (n_items nd) defs) as [[items|]|e];
        simpl in H; try discriminate.
      exists items. split; [reflexivity|]. inversion H. reflexivity.
Qed.

Lemma independent_parameter_type_witness :
  exists i,
    independent_param ∅ ∅
      (with_schema "ids" "body" (array_of (typed "integer"))) = Ok i
    /\ type i = Some "array<integer>".
Proof.
  destruct (independent_param ∅ ∅
              (with_schema "ids" "body" (array_of (typed "integer"))))
    as [i|e] eqn:H; [|vm_compute in H; discriminate].
  exists i. split; [reflexivity|].
  destruct (proj2 (independent_parameter_type _ _ _ _ H)
              (array_of (typed "integer")) (array_of (typed "integer"))
              eq_refl eq_refl) as [_ Harr].
  destruct (Harr eq_refl) as (items & Hitems & Ht).
  rewrite Ht. inversion Hitems. reflexivity.
Defined.

(** *** Discovery *)

Lemma absent_iff x l : absent x l = true <-> ~ In x l.
Proof.
  unfold absent. rewrite negb_true_iff. split.
  - intros H Hin. assert (existsb (String.eqb x) l = true) as E.
    { apply existsb_exists. exists x. split; [assumption|].
      apply String.eqb_refl. }
    congruence.
  - intros H. destruct (existsb (String.eqb x) l) eqn:E; [|reflexivity].
    apply existsb_exists in E. destruct E as (y & Hy & Heq).
    apply String.eqb_eq in Heq. subst. contradiction.
Qed.

Lemma add_source_spec l : forall acc,
  List.NoDup acc ->
  List.NoDup (add_source acc l)
  /\ forall x, In x (add_source acc l) <-> In x acc \/ In x l.
Proof.
  unfold add_source.
  induction l as [|api l IH]; simpl; intros acc Hnd.
  - split; [assumption|]. tauto.
  - destruct (absent api acc) eqn:E.
    + apply absent_iff in E.
      destruct (IH (acc ++ [api])) as [Hnd' Hin].
      { apply List.NoDup_app; [assumption| |].
        - repeat constructor. simpl. tauto.
        - intros y Hy [->|[]]. contradiction. }
      split; [assumption|]. intros x. rewrite Hin, in_app_iff. simpl.
      intuition.
    + destruct (IH acc Hnd) as [Hnd' Hin].
      split; [assumption|]. intros x. rewrite Hin.
      assert (In api acc).
      { destruct (in_dec string_dec api acc) as [Hi|Hn]; [assumption|].
        apply absent_iff in Hn. congruence. }
      intuition; subst; auto.
Qed.

Lemma merge_sources_spec sources : forall acc,
  List.NoDup acc ->
  List.NoDup
    (fold_left (fun acc source =>
                  match source with
                  | Ok sourceApiList => add_source acc sourceApiList
                  | Throw _ => acc
                  end) sources acc)
  /\ forall x,
      In x (fold_left (fun acc source =>
                         match source with
                         | Ok sourceApiList => add_source acc sourceApiList
                         | Throw _ => acc
                         end) sources acc)
      <-> In x acc \/ exists l, In (Ok l) sources /\ In x l.
Proof.
  induction sources as [|[l|e] sources IH]; simpl; intros acc Hnd.
  - split; [assumption|]. intros x. split; [tauto|].
    intros [H|(l & [] & _)]. assumption.
  - destruct (add_source_spec l acc Hnd) as [Hnd1 Hin1].
    destruct (IH _ Hnd1) as [Hnd2 Hin2].
    split; [assumption|]. intros x. rewrite Hin2, Hin1. split.
    + intros [[H|H]|(l' & Hl' & Hx)]; eauto 6.
    + intros [H|(l' & [Heq|Hl'] & Hx)]; eauto 6.
      inversion Heq; subst. auto.
  - destruct (IH acc Hnd) as [Hnd2 Hin2].
    split; [assumption|]. intros x. rewrite Hin2. split.
    + intros [H|(l' & Hl' & Hx)]; eauto 6.
    + intros [H|(l' & [Heq|Hl'] & Hx)]; eauto 6. discriminate.
Qed.

(** X12: the list fetchApiList returns has no duplicate, holds none of
    the excluded addresses, and holds exactly the other addresses found
    by the sources whose request succeeded; a source that fails takes
    nothing away from the others. *)
Theorem fetchApiList_merges sources :
  List.NoDup (fetchApiList sources)
  /\ forall api,
      In api (fetchApiList sources)
      <-> ~ In api excludes
          /\ exists l, In (Ok l) sources /\ In api l.
Proof.
  unfold fetchApiList.
  destruct (merge_sources_spec sources [] (List.NoDup_nil _)) as [Hnd Hin].
  split.
  - now apply List.NoDup_filter.
  - intros api. rewrite filter_In, Hin, absent_iff. simpl. tauto.
Qed.

(** *** Metadata *)

Lemma take_while_chars p s : all_chars p (take_while p s) = true.
Proof.
  induction s as [|c s IH]; simpl; [reflexivity|].
  destruct (p c) eqn:E; [simpl; now rewrite E|reflexivity].
Qed.

Lemma match_subdomain_chars u g :
  match_subdomain u = Some g ->
  g <> EmptyString /\ all_chars is_name_char g = true.
Proof.
  induction u as [|c r IH]; [discriminate|].
  cbn [match_subdomain].
  destruct (Ascii.eqb c "/"); [|exact IH].
  pose proof (take_while_chars is_name_char r) as Hc.
  destruct (take_while is_name_char r) as [|x g'] eqn:E; [exact IH|].
  destruct (Js.drop (String.length (String x g')) r) as [|d rest];
    [exact IH|].
  destruct (Ascii.eqb d "."); [|exact IH].
  intros H. inversion H; subst. split; [discriminate|assumption].
Qed.

Lemma split_on_keeps p sep s :
  all_chars p s = true ->
  Forall (fun part => all_chars p part = true) (split_on sep s).
Proof.
  induction s as [|c s IH]; simpl; intros H.
  - repeat constructor.
  - apply andb_prop in H. destruct H as [Hc Hs]. specialize (IH Hs).
    destruct (sep c).
    + constructor; [reflexivity|assumption].
    + destruct (split_on sep s) as [|h t].
      * constructor; [simpl; now rewrite Hc|constructor].
      * inversion IH; subst. constructor; [|assumption].
        simpl. now rewrite Hc.
Qed.

Lemma all_chars_both p q s :
  all_chars p s = true -> all_chars q s = true ->
  all_chars (fun c => p c && q c) s = true.
Proof.
  induction s as [|c s IH]; simpl; [reflexivity|].
  intros Hp Hq. apply andb_prop in Hp. apply andb_prop in Hq.
  destruct Hp as [-> Hp], Hq as [-> Hq]. simpl. now apply IH.
Qed.

(** X13: the class name derived from an address is made of letters
    only, so it can be used as an identifier and as a search pattern. *)
Theorem className_letters u apiClassName :
  className u = Some apiClassName ->
  all_chars is_letter apiClassName = true.
Proof.
  unfold className. destruct (match_subdomain u) as [raw|] eqn:E;
    [|discriminate].
  intros H. inversion H; subst. clear H.
  destruct (match_subdomain_chars _ _ E) as [_ Hraw].
  assert (Hparts :
            Forall (fun part => all_chars is_letter part = true)
                   (split_on (fun c => Ascii.eqb c "-") raw)).
  { pose proof (split_on_keeps is_name_char
                  (fun c => Ascii.eqb c "-") raw Hraw) as H1.
    pose proof (split_on_parts (fun c => Ascii.eqb c "-") raw) as H2.
    rewrite List.Forall_forall in *. intros part Hin.
    eapply all_chars_weaken;
      [|exact (all_chars_both _ _ _ (H1 part Hin) (H2 part Hin))].
    intros c Hc. cbv beta in Hc. unfold is_name_char in Hc.
    destruct (is_letter c); [reflexivity|].
    destruct (Ascii.eqb c "-"); discriminate. }
  assert (Hacc : all_chars is_letter EmptyString = true) by reflexivity.
  revert Hacc. generalize EmptyString as acc.
  induction Hparts as [|part parts Hp _ IH]; intros acc Hacc; simpl.
  - exact Hacc.
  - apply IH. rewrite all_chars_append, Hacc. simpl.
    rewrite all_chars_toNormalCase; [assumption| |].
    + apply upper_char_keeps.
    + apply lower_char_keeps.
Qed.

Lemma className_letters_witness :
  all_chars is_letter "GameJoin" = true.
Proof.
  apply (className_letters "https://game-join.roblox.com" "GameJoin").
  reflexivity.
Defined.

Lemma set_property_keys {V} key (value : V) o :
  List.NoDup (map fst o) ->
  List.NoDup (map fst (set_property key value o))
  /\ (forall k v, In (k, v) (set_property key value o) ->
        (k = key /\ v = value) \/ In (k, v) o)
  /\ List.length (set_property key value o) <= S (List.length o).
Proof.
  induction o as [|[k0 v0] o IH]; simpl; intros Hnd.
  - repeat split.
    + repeat constructor. simpl. tauto.
    + intros k v [Heq|[]]. inversion Heq; auto.
    + lia.
  - inversion Hnd as [|? ? Hnotin Hnd']; subst.
    destruct (String.eqb_spec k0 key) as [->|Hne]; simpl.
    + repeat split; [assumption| |lia].
      intros k v [Heq|Hin]; [inversion Heq; auto|auto].
    + destruct (IH Hnd') as (Hnd1 & Hin1 & Hlen1).
      repeat split; [|intros k v [Heq|Hin]; [auto|]|lia].
      * constructor; [|assumption].
        intros Hin. apply in_map_iff in Hin.
        destruct Hin as ([k v] & Hk & Hin). simpl in Hk. subst k.
        destruct (Hin1 _ _ Hin) as [[Heq _]|Hin'].
        -- congruence.
        -- apply Hnotin. apply in_map_iff. exists (k0, v). auto.
      * destruct (Hin1 _ _ Hin) as [?|?]; auto.
Qed.

Lemma fetchMeta_invariant all responses : forall result availableCount,
  (forall r, In r responses -> In r all) ->
  List.NoDup (map fst result) ->
  (forall k m, In (k, m) result ->
     exists md, In (url m, Ok md) all
                /\ className (url m) = Some k /\ m = with_url md (url m)) ->
  List.length result <= availableCount ->
  let '(result', availableCount') :=
    fold_left
      (fun '(result, availableCount) '(u, response) =>
         match response with
         | Ok m =>
             match className u with
             | Some apiClassName =>
                 (set_property apiClassName (with_url m u) result,
                  S availableCount)
             | None => (result, availableCount)
             end
         | Throw _ => (result, availableCount)
         end) responses (result, availableCount) in
  List.NoDup (map fst result')
  /\ (forall k m, In (k, m) result' ->
        exists md, In (url m, Ok md) all
                   /\ className (url m) = Some k
                   /\ m = with_url md (url m))
  /\ List.length result' <= availableCount'
  /\ availableCount'
     = availableCount
       + List.length
           (List.filter
              (fun '(u, response) =>
                 match response, className u with
                 | Ok _, Some _ => true
                 | _, _ => false
                 end) responses).
Proof.
  induction responses as [|[u [md|e]] responses IH];
    intros result availableCount Hall Hnd Hent Hlen.
  - simpl. repeat split; try assumption. lia.
  - cbn [fold_left List.filter].
    destruct (className u) as [k|] eqn:Hk.
    + destruct (set_property_keys k (with_url md u) result Hnd)
        as (Hnd1 & Hin1 & Hlen1).
      specialize (IH (set_property k (with_url md u) result)
                     (S availableCount)).
      destruct (fold_left _ responses _) as [result' count'].
      destruct IH as (H1 & H2 & H3 & H4).
      * intros r Hr. apply Hall. now right.
      * assumption.
      * intros k' m Hin. destruct (Hin1 _ _ Hin) as [[-> ->]|Hin'].
        -- exists md. simpl. repeat split; [|assumption].
           apply Hall. now left.
        -- now apply Hent.
      * lia.
      * repeat split; try assumption. simpl. lia.
    + specialize (IH result availableCount).
      destruct (fold_left _ responses _) as [result' count'].
      apply IH; try assumption. intros r Hr. apply Hall. now right.
  - cbn [fold_left List.filter].
    specialize (IH result availableCount).
    destruct (fold_left _ responses _) as [result' count'].
    apply IH; try assumption. intros r Hr. apply Hall. now right.
Qed.

(** X14: in what fetchMeta returns, the keys are distinct names made of
    letters; every entry is the metadata of an address whose request
    succeeded and from which the key is derived, with that address as
    its [url]; failed requests and addresses without a sub-domain leave
    no entry; the count is the number of usable answers, at least the
    number of entries. *)
Theorem fetchMeta_entries responses :
  List.NoDup (map fst (fst (fetchMeta responses)))
  /\ (forall k m,
         In (k, m) (fst (fetchMeta responses)) ->
         all_chars is_letter k = true
         /\ exists md,
             In (url m, Ok md) responses
             /\ className (url m) = Some k
             /\ m = with_url md (url m))
  /\ List.length (fst (fetchMeta responses)) <= snd (fetchMeta responses)
  /\ snd (fetchMeta responses)
     = List.length
         (List.filter
            (fun '(u, response) =>
               match response, className u with
               | Ok _, Some _ => true
               | _, _ => false
               end) responses).
Proof.
  unfold fetchMeta.
  pose proof (fetchMeta_invariant responses responses [] 0
                (fun r H => H) (List.NoDup_nil _)
                (fun k m (H : In (k, m) []) => match H with end)
                (Nat.le_refl 0)) as H.
  destruct (fold_left _ responses ([], 0)) as [result count].
  destruct H as (H1 & H2 & H3 & H4). simpl.
  repeat split; try assumption.
  - destruct (H2 k m H) as (md & _ & Hk & _).
    exact (className_letters _ _ Hk).
  - destruct (H2 k m H) as (md & Hin & Hk & Hm). eauto.
Qed.

(** *** The interceptor on a 403 response *)

(** X15: for an error that carries its request and a response, the
    interceptor replays the request exactly when the status is 403 and
    the request was not made to the token endpoint, and it replays that
    very request; it stores a token exactly when the status is 403, the
    request was made to the token endpoint and the response carries a
    non-empty token; the expiry callback is called exactly when the
    status is 401 and the callback was given. *)
Theorem interceptor_decisions onTokenExpired err c r :
  Client.config_ err = Some c ->
  Client.response_ err = Some r ->
  (forall c',
      Client.act (Client.on_rejected onTokenExpired err)
      = Client.RefreshThenReplay c'
      <-> Client.status r = 403%Z
          /\ Client.url c <> Client.XCSRFEndpoint /\ c' = c)
  /\ (forall tok,
         Client.act (Client.on_rejected onTokenExpired err)
         = Client.StoreToken tok
         <-> Client.status r = 403%Z
             /\ Client.url c = Client.XCSRFEndpoint
             /\ Client.x_csrf_token r = Some tok /\ tok <> EmptyString)
  /\ (Client.expiry_calls (Client.on_rejected onTokenExpired err) = 1
      <-> Client.status r = 401%Z /\ onTokenExpired = true)
  /\ Client.expiry_calls (Client.on_rejected onTokenExpired err) <= 1.
Proof.
  intros Hc Hr.
  assert (Happend : forall x,
             Client.append_first_error err r <> Client.RefreshThenReplay x
             /\ forall t, Client.append_first_error err r
                          <> Client.StoreToken t).
  { intros x. unfold Client.append_first_error.
    destruct (Client.data r) as [d|]; [|split; [|intros t]; discriminate].
    destruct (Client.errors d) as [[|first rest]|];
      split; try intros t; discriminate. }
  unfold Client.on_rejected. rewrite Hc, Hr.
  destruct (Z.eqb_spec (Client.status r) 401) as [E401|N401];
    [|destruct (Z.eqb_spec (Client.status r) 403) as [E403|N403];
      [destruct (String.eqb_spec (Client.url c) Client.XCSRFEndpoint)
         as [Eurl|Nurl];
       [destruct (Client.x_csrf_token r) as [[|a tok0]|]|]|]];
    cbn [negb Client.act Client.expiry_calls truthy];
    (split; [intros c'|split; [intros tok|split]]);
    try (split; intros H);
    try (exfalso; exact (proj1 (Happend _) H));
    try (exfalso; exact (proj2 (Happend c) _ H));
    try discriminate H;
    try (destruct onTokenExpired; lia);
    try lia;
    try (inversion H; subst; repeat split; congruence);
    try (destruct H as (H1 & H2 & H3); subst; try lia; try congruence;
         try (destruct H3 as [H3 H4]; inversion H3; subst; congruence));
    try (destruct H as [H1 H2]; subst; try lia; reflexivity);
    try (destruct onTokenExpired; [split; [assumption|reflexivity]
                                  |discriminate H]).
Qed.

Lemma interceptor_decisions_witness :
  Client.act (Client.on_rejected true forbidden)
  = Client.RefreshThenReplay forbidden_config
  /\ Client.expiry_calls (Client.on_rejected true forbidden) <> 1.
Proof.
  destruct (interceptor_decisions true forbidden forbidden_config
              {| Client.status := 403;
                 Client.data := Some {| Client.errors := None |};
                 Client.x_csrf_token := None |} eq_refl eq_refl)
    as (Hreplay & _ & Hcalls & _).
  split.
  - apply Hreplay. repeat split. discriminate.
  - intros H. apply Hcalls in H. destruct H as [H _]. discriminate.
Defined.

(** *** The grouped parameters *)

Lemma promote_properties_fields props o defs : forall ps,
  promote_properties props o defs = Ok ps ->
  map name ps = map (fun prop => normalize_name (fst prop)) props
  /\ map type ps = map (fun prop => n_type (snd prop)) props
  /\ map out_ ps = map (fun _ => o) props.
Proof.
  induction props as [|[nm propInfo] rest IH]; simpl; intros ps H.
  - inversion H. auto.
  - destruct (if is_type (n_type propInfo) "array"
              then array_type propInfo defs
              else Ok (show (n_type propInfo))) as [t|e];
      simpl in H; [|discriminate].
    destruct (promote_properties rest o defs) as [more|e];
      simpl in H; [|discriminate].
    inversion H; subst. destruct (IH more eq_refl) as (Hn & Ht & Ho).
    simpl. rewrite Hn, Ht, Ho. auto.
Qed.

Lemma grouped_case_shape path mi defs mi' info p s nd props :
  buildParamsInfo path mi defs = Ok (mi', info) ->
  parameters mi = Some [p] ->
  p_schema p = Some s ->
  extractSchemaNode (Some s) defs = Ok (Some nd) ->
  is_type (n_type nd) "object" = true ->
  n_properties nd = Some props ->
  map name (params info) = map (fun prop => normalize_name (fst prop)) props
  /\ map type (params info) = map (fun prop => n_type (snd prop)) props
  /\ map out_ (params info)
     = map (fun _ => {| param := p_name p;
                        location := resolve_location
                                      (collect_pathParams path)
                                      (p_name p) (p_in p) |}) props
  /\ isMapped info = negb (Nat.eqb (List.length props) 0).
Proof.
  unfold buildParamsInfo. intros H Hdecl Hs Hnd Hobj Hprops.
  rewrite Hdecl in H. cbv zeta in H.
  change (Js.sort required_first [p]) with [p] in H.
  cbv iota in H. rewrite Hs in H. cbv iota in H.
  rewrite Hs, Hnd in H. simpl in H. rewrite Hobj, Hprops in H.
  destruct (promote_properties props _ defs) as [ps|e] eqn:Hps;
    simpl in H; [|discriminate].
  inversion H; subst. simpl.
  destruct (promote_properties_fields _ _ _ _ Hps) as (Hn & Ht & Ho).
  repeat split; try assumption. now destruct props.
Qed.

(** X16: when the only declared parameter carries a schema that
    resolves to an object, every property of the object gives one
    logical parameter, in the order of the properties, under its
    normalized name and with the type of the property; all of them share
    one target, the name of the declared parameter, and one location,
    [path] when reading that name in [pathParams] gives something (a
    placeholder of the path, or one of the names every object inherits,
    such as [constructor]) and the declared [in] otherwise; they are
    grouped as soon as there is a property. *)
Theorem grouped_parameters_share_target path mi defs mi' info p s nd props :
  buildParamsInfo path mi defs = Ok (mi', info) ->
  parameters mi = Some [p] ->
  p_schema p = Some s ->
  extractSchemaNode (Some s) defs = Ok (Some nd) ->
  is_type (n_type nd) "object" = true ->
  n_properties nd = Some props ->
  map name (params info) = map (fun prop => normalize_name (fst prop)) props
  /\ map type (params info) = map (fun prop => n_type (snd prop)) props
  /\ map out_ (params info)
     = map (fun _ => {| param := p_name p;
                        location := resolve_location
                                      (collect_pathParams path)
                                      (p_name p) (p_in p) |}) props
  /\ isMapped info = negb (Nat.eqb (List.length props) 0).
Proof. apply grouped_case_shape. Qed.

Lemma grouped_parameters_share_target_witness :
  exists mi' info,
    buildParamsInfo "/v1/batch" batch_op batch_definitions = Ok (mi', info)
    /\ map name (params info) = ["userIds"]
    /\ map out_ (params info)
       = [{| param := "request"; location := Some "body" |}]
    /\ isMapped info = true.
Proof.
  destruct (buildParamsInfo "/v1/batch" batch_op batch_definitions)
    as [[mi' info]|e] eqn:H; [|vm_compute in H; discriminate].
  exists mi', info. split; [reflexivity|].
  destruct (grouped_parameters_share_target _ _ _ _ _
              (with_schema "request" "body"
                 (reference "#/definitions/BatchRequest"))
              (reference "#/definitions/BatchRequest")
              (object_of [("userIds", array_of (typed "integer"))])
              [("userIds", array_of (typed "integer"))]
              H eq_refl eq_refl ltac:(vm_compute; reflexivity)
              eq_refl eq_refl) as (Hn & _ & Ho & Hm).
  split; [exact Hn|]. split; [|exact Hm].
  rewrite Ho. vm_compute. reflexivity.
Defined.

(** *** A run in which every document request succeeds *)

Lemma first_rejection_none {A} settle (ps : list (result A)) :
  (forall p, In p ps -> exists v, p = Ok v) ->
  first_rejection settle ps = None.
Proof.
  intros Hall. induction settle as [|i settle IH]; simpl; [reflexivity|].
  destruct (nth_error ps i) as [[v|e]|] eqn:E; try assumption.
  apply nth_error_In in E. destruct (Hall _ E) as [v Hv]. discriminate.
Qed.

Lemma Promise_all_all_fulfilled {A} settle (ps : list (result A)) :
  (forall p, In p ps -> exists v, p = Ok v) ->
  exists vs, Promise_all settle ps = Ok vs.
Proof.
  intros Hall. unfold Promise_all.
  rewrite first_rejection_none by assumption.
  induction ps as [|p ps IH]; simpl; [eauto|].
  destruct (Hall p (or_introl eq_refl)) as [v ->].
  destruct IH as [vs ->]; [intros q Hq; apply Hall; now right|].
  simpl. eauto.
Qed.

Lemma fetchMeta_keys_distinct responses :
  List.NoDup (map fst (fst (fetchMeta responses))).
Proof.
  unfold fetchMeta.
  pose proof (fetchMeta_invariant responses responses [] 0
                (fun r H => H) (List.NoDup_nil _)
                (fun k m (H : In (k, m) []) => match H with end)
                (Nat.le_refl 0)) as H.
  destruct (fold_left _ responses ([], 0)) as [result count].
  now destruct H as (H1 & _).
Qed.

(** X17: with a non-empty list of addresses, when the document of every
    version declared by the metadata fetchMeta recorded is fetched and
    compiled without error, the run does not fail: the tree handed to
    the emitter holds every recorded API with its metadata and, for each
    declared version, the methods compiled from its document. *)
Theorem run_emits_every_api apisList responses get settle :
  apisList <> [] ->
  (forall a d v,
      In (a, d) (fst (fetchMeta responses)) -> In v (versions d) ->
      exists ms, document_request get a d v = Ok ms) ->
  exists tree,
    main apisList (fst (fetchMeta responses)) get settle = Emitted tree
    /\ forall a d,
        In (a, d) (fst (fetchMeta responses)) ->
        exists vs,
          tree !! a = Some (d, vs)
          /\ forall v, In v (versions d) ->
               exists ms, vs !! v = Some ms
                          /\ document_request get a d v = Ok ms.
Proof.
  intros Hne Hall.
  assert (Htree : exists tree,
             buildApiTree get settle (fst (fetchMeta responses)) = Ok tree).
  { unfold buildApiTree.
    destruct (Promise_all_all_fulfilled settle
                (map (fun '(apiName, data, version) =>
                        document_request get apiName data version)
                     (requests (fst (fetchMeta responses)))))
      as [vs Hvs].
    - intros p Hp. apply in_map_iff in Hp.
      destruct Hp as ([[a d] v] & <- & Hin).
      apply requests_iff in Hin. destruct Hin as [Ha Hv].
      destruct (Hall a d v Ha Hv) as [ms Hms]. eauto.
    - rewrite Hvs. simpl. eauto. }
  destruct Htree as [tree Htree]. exists tree. split.
  - unfold main. rewrite Htree. destruct apisList; congruence.
  - intros a d Hin.
    destruct (returned_tree _ _ _ _ Htree (fetchMeta_keys_distinct _))
      as [Hevery _].
    destruct (Hevery a d Hin) as (vs & Ht & Hv & _). eauto.
Qed.

Lemma run_emits_every_api_witness :
  exists tree,
    main ["https://users.roblox.com"]
         (fst (fetchMeta [("https://users.roblox.com", Ok users_metadata)]))
         (fun _ => Ok friends_doc) [0] = Emitted tree.
Proof.
  destruct (run_emits_every_api ["https://users.roblox.com"]
              [("https://users.roblox.com", Ok users_metadata)]
              (fun _ => Ok friends_doc) [0]) as (tree & Hmain & _).
  - discriminate.
  - intros a d v Hin Hv. vm_compute in Hin.
    destruct Hin as [Heq|[]]. inversion Heq; subst.
    destruct Hv as [<-|[]].
    destruct (document_request (fun _ => Ok friends_doc) "Users"
                (with_url users_metadata "https://users.roblox.com") "v1")
      as [ms|e] eqn:E; [eauto|vm_compute in E; discriminate].
  - exists tree. exact Hmain.
Defined.

(** *** C2: parameter locations *)

(** C2, as stated, fails: a single object parameter declared in
    [formData] is grouped, its location resolves to [formData], one of
    the five, and the body of the method is refused with the
    unsupported-location error. *)
Lemma grouped_formData_is_refused :
  exists mi' info,
    buildParamsInfo "/v1/upload" upload_op ∅ = Ok (mi', info)
    /\ isMapped info = true
    /\ Forall (fun p => location (out_ p) = Some "formData") (params info)
    /\ buildMethodBody "https://data.roblox.com/v1/upload" "post"
         (params info) (pathParams info) (isMapped info)
       = Throw (Error "Unsupported parameter location: formData").
Proof.
  eexists _, _. split; [vm_compute; reflexivity|].
  split; [reflexivity|]. split; [|reflexivity].
  repeat constructor.
Qed.

Lemma independent_body_throws u methodType ps pp :
  Exists (fun p => routed_independently (location (out_ p)) = false) ps ->
  exists e, buildMethodBody u methodType ps pp false = Throw e.
Proof.
  intros H. unfold buildMethodBody.
  destruct (route_params_not_routed pp ps
              {| fullURL := u; reqBody := None; reqParams := [];
                 reqHeaders := [] |} H) as [e ->].
  simpl. eauto.
Qed.

Lemma grouped_body_throws path mi defs mi' info u methodType :
  buildParamsInfo path mi defs = Ok (mi', info) ->
  isMapped info = true ->
  Exists (fun p => routed_grouped (location (out_ p)) = false)
         (params info) ->
  exists p,
    In p (params info)
    /\ buildMethodBody u methodType (params info) (pathParams info) true
       = Throw (unsupported (location (out_ p))).
Proof.
  intros Hinfo Hm Hex.
  destruct (mapped_params_share_out _ _ _ _ _ Hinfo Hm)
    as (o & Hne & Hout & _).
  assert (Hloc : routed_grouped (location o) = false).
  { apply List.Exists_exists in Hex. destruct Hex as (p & Hin & Hp).
    rewrite List.Forall_forall in Hout. now rewrite <- (Hout p Hin). }
  destruct (params info) as [|p ps] eqn:Hps; [congruence|].
  exists p. split; [now left|].
  unfold buildMethodBody.
  rewrite (route_group_not_routed (pathParams info) _ (p :: ps) o)
    by assumption.
  inversion Hout; subst. reflexivity.
Qed.

(** C2, amended: for the logical parameters buildParamsInfo returns,
    - independent parameters whose locations are all among path, query,
      header, body and formData never raise the unsupported-location
      error: the body is generated, or the second body parameter raises
      its own error;
    - grouped parameters whose location is among path, query, header and
      body (formData is not routed for a group) get their body;
    - a logical parameter whose location is outside the set of its case
      makes buildMethodBody throw, and every run that fetches the
      operation ends on the failure report.
    For the declared parameters this gives: in an operation that
    declares no parameter, several parameters, or parameters without
    schema, every declared parameter whose resolved location is outside
    the five fails every run; so does the single declared parameter
    whose schema resolves to an object with a property, when its
    resolved location is outside path, query, header and body.  Nothing
    is said of a single declared parameter that buildParamsInfo does not
    turn into a logical parameter. *)
Theorem parameter_locations path mi defs mi' info :
  buildParamsInfo path mi defs = Ok (mi', info) ->
  (isMapped info = false ->
   Forall (fun p => routed_independently (location (out_ p)) = true)
          (params info) ->
   forall u methodType,
     (exists text,
         buildMethodBody u methodType (params info) (pathParams info)
                         (isMapped info) = Ok text)
     \/ buildMethodBody u methodType (params info) (pathParams info)
                        (isMapped info) = Throw (Error "[object Object]"))
  /\ (isMapped info = true ->
      Forall (fun p => routed_grouped (location (out_ p)) = true)
             (params info) ->
      forall u methodType, exists text,
        buildMethodBody u methodType (params info) (pathParams info)
                        (isMapped info) = Ok text)
  /\ (isMapped info = false ->
      Exists (fun p => routed_independently (location (out_ p)) = false)
             (params info) ->
      (forall u methodType, exists e,
          buildMethodBody u methodType (params info) (pathParams info)
                          (isMapped info) = Throw e)
      /\ fails_every_run path mi defs)
  /\ (isMapped info = true ->
      Exists (fun p => routed_grouped (location (out_ p)) = false)
             (params info) ->
      (forall u methodType, exists p,
          In p (params info)
          /\ buildMethodBody u methodType (params info) (pathParams info)
                             (isMapped info)
             = Throw (unsupported (location (out_ p))))
      /\ fails_every_run path mi defs)
  /\ (forall declared p,
         parameters mi = Some declared ->
         List.length declared <> 1
         \/ (forall q, In q declared -> p_schema q = None) ->
         In p declared ->
         routed_independently
           (resolve_location (collect_pathParams path) (p_name p) (p_in p))
         = false ->
         fails_every_run path mi defs)
  /\ (forall p s nd props,
         parameters mi = Some [p] ->
         p_schema p = Some s ->
         extractSchemaNode (Some s) defs = Ok (Some nd) ->
         is_type (n_type nd) "object" = true ->
         n_properties nd = Some props ->
         props <> [] ->
         routed_grouped
           (resolve_location (collect_pathParams path) (p_name p) (p_in p))
         = false ->
         fails_every_run path mi defs).
Proof.
  intros Hinfo.
  assert (Hind : isMapped info = false ->
                 Exists (fun p => routed_independently
                                    (location (out_ p)) = false)
                        (params info) ->
                 (forall u methodType, exists e,
                     buildMethodBody u methodType (params info)
                       (pathParams info) (isMapped info) = Throw e)
                 /\ fails_every_run path mi defs).
  { intros Hm Hex.
    assert (Hb : forall u methodType, exists e,
               buildMethodBody u methodType (params info)
                 (pathParams info) (isMapped info) = Throw e).
    { intros u methodType. rewrite Hm.
      now apply independent_body_throws. }
    split; [exact Hb|].
    exact (body_error_fails_every_run path mi defs mi' info Hinfo Hb). }
  assert (Hgrp : isMapped info = true ->
                 Exists (fun p => routed_grouped (location (out_ p)) = false)
                        (params info) ->
                 (forall u methodType, exists p,
                     In p (params info)
                     /\ buildMethodBody u methodType (params info)
                          (pathParams info) (isMapped info)
                        = Throw (unsupported (location (out_ p))))
                 /\ fails_every_run path mi defs).
  { intros Hm Hex.
    assert (Hb : forall u methodType, exists p,
               In p (params info)
               /\ buildMethodBody u methodType (params info)
                    (pathParams info) (isMapped info)
                  = Throw (unsupported (location (out_ p)))).
    { intros u methodType. rewrite Hm.
      exact (grouped_body_throws _ _ _ _ _ u methodType Hinfo Hm Hex). }
    split; [exact Hb|].
    apply (body_error_fails_every_run path mi defs mi' info Hinfo).
    intros u methodType. destruct (Hb u methodType) as (p & _ & Hp).
    eauto. }
  split; [|split; [|split; [exact Hind|split; [exact Hgrp|split]]]].
  - intros Hm Hall u methodType. unfold buildMethodBody. rewrite Hm.
    destruct (route_params_routed (pathParams info) (params info)
                {| fullURL := u; reqBody := None; reqParams := [];
                   reqHeaders := [] |} Hall) as [[rq ->]| ->]; simpl; eauto.
  - intros Hm Hall u methodType.
    destruct (mapped_params_share_out _ _ _ _ _ Hinfo Hm)
      as (o & Hne & Hout & _).
    unfold buildMethodBody. rewrite Hm.
    destruct (route_group_routed (pathParams info)
                {| fullURL := u; reqBody := None; reqParams := [];
                   reqHeaders := [] |} (params info) o Hne Hout)
      as [rq ->]; simpl; eauto.
    destruct (params info) as [|p ps]; [congruence|].
    inversion Hall; inversion Hout; subst. assumption.
  - intros declared p Hdecl Hcase Hin Hloc.
    destruct (independent_case_shape _ _ _ _ _ _ Hinfo Hdecl Hcase)
      as (Hm & _ & Hout & _).
    refine (proj2 (Hind Hm _)).
    apply List.Exists_exists.
    assert (Hsorted : In p (Js.sort required_first declared)).
    { eapply Permutation_in; [|exact Hin].
      symmetry. apply sort_required_first_permutation. }
    apply (in_map (fun p => {| param := p_name p;
                               location := resolve_location
                                             (collect_pathParams path)
                                             (p_name p) (p_in p) |}))
      in Hsorted.
    rewrite <- Hout in Hsorted. apply in_map_iff in Hsorted.
    destruct Hsorted as (i & Hi & Hini).
    exists i. split; [assumption|]. now rewrite Hi.
  - intros p s nd props Hdecl Hs Hnd Hobj Hprops Hne Hloc.
    destruct (grouped_case_shape _ _ _ _ _ _ _ _ _
                Hinfo Hdecl Hs Hnd Hobj Hprops) as (_ & _ & Hout & Hm).
    assert (Hm' : isMapped info = true).
    { rewrite Hm. destruct props; [congruence|reflexivity]. }
    refine (proj2 (Hgrp Hm' _)).
    destruct props as [|prop props]; [congruence|].
    remember (params info) as ps0 eqn:Eps. clear Eps.
    destruct ps0 as [|i ps]; simpl in Hout; [discriminate|].
    injection Hout as Hi _.
    constructor. rewrite Hi. exact Hloc.
Qed.

Lemma parameter_locations_witness :
  (forall u methodType, exists text,
      buildMethodBody u methodType friends_params
        (collect_pathParams friends_path) false = Ok text)
  /\ fails_every_run "/v1/session" cookie_op ∅.
Proof.
  split.
  - destruct (buildParamsInfo friends_path friends_op ∅)
      as [[mi' info]|e] eqn:H; vm_compute in H; [|discriminate].
    inversion H as [[Hmi Hi]].
    assert (H' : buildParamsInfo friends_path friends_op ∅ = Ok (mi', info))
      by (subst; vm_compute; reflexivity).
    pose proof (proj1 (parameter_locations _ _ _ _ _ H')) as W.
    subst info. simpl in W.
    intros u methodType.
    destruct (W eq_refl ltac:(repeat constructor) u methodType)
      as [Hok|Hdup]; [exact Hok|].
    vm_compute in Hdup. discriminate.
  - destruct (buildParamsInfo "/v1/session" cookie_op ∅)
      as [[mi' info]|e] eqn:H; vm_compute in H; [|discriminate].
    inversion H as [[Hmi Hi]].
    assert (H' : buildParamsInfo "/v1/session" cookie_op ∅ = Ok (mi', info))
      by (subst; vm_compute; reflexivity).
    apply (proj1 (proj2 (proj2 (proj2 (proj2
             (parameter_locations _ _ _ _ _ H')))))
             [plain "limit" "query" false; plain "session" "cookie" true]
             (plain "session" "cookie" true)).
    + reflexivity.
    + left. simpl. lia.
    + simpl. right. left. reflexivity.
    + vm_compute. reflexivity.
Defined.

